(** * iputils: a shallow embedding of [iputils.go]

    The Go package works on [net.IP] values, which are byte slices.  A slice
    is modelled as a reference into a heap of byte buffers, so that in-place
    mutation ([Next]), fresh allocation ([CopyIP], [GetNetworkIPRange]) and the
    aliasing between an iterator and its caller's buffers are all explicit.
    Bytes are integers in [0, 256); [uint8] wrap-around is written out.
    Bounds-checked indexing is modelled with an explicit [Panic] outcome. *)

From stdpp Require Import base numbers list gmap strings pretty.

Local Open Scope Z_scope.

(** ** Heap, slices and the state-and-panic monad *)

(** A slice is identified with the buffer it points to: the package never
    re-slices, so pointer, length and capacity always describe one whole
    buffer.  A nil slice behaves like an empty one for every operation used
    here ([len], [range], [copy], [bytes.Equal], [bytes.Compare]). *)
Abbreviation loc := positive.
Abbreviation heap := (gmap positive (list Z)).

Inductive result (A : Type) : Type :=
  | Ok (a : A)
  | Panic.
Arguments Ok {A} a.
Arguments Panic {A}.

Definition M (A : Type) : Type := heap → result (A * heap).

Definition ret {A} (a : A) : M A := λ h, Ok (a, h).

Definition bind {A B} (m : M A) (k : A → M B) : M B :=
  λ h, match m h with
       | Ok (a, h') => k a h'
       | Panic => Panic
       end.

#[global] Instance M_ret : MRet M := @ret.
#[global] Instance M_bind : MBind M := λ A B k m, bind m k.

(** Contents of the buffer behind a slice. *)
Definition buf (h : heap) (s : loc) : list Z := default [] (h !! s).

Definition read (s : loc) : M (list Z) := λ h, Ok (buf h s, h).

(** [len(s)] *)
Definition len (s : loc) : M nat := λ h, Ok (length (buf h s), h).

(** [s[i]] as an rvalue: panics when [i] is out of range. *)
Definition load (s : loc) (i : nat) : M Z :=
  λ h, match buf h s !! i with
       | Some b => Ok (b, h)
       | None => Panic
       end.

(** [s[i] = v]: panics when [i] is out of range. *)
Definition store (s : loc) (i : nat) (v : Z) : M unit :=
  λ h, if decide (i < length (buf h s))%nat
       then Ok (tt, <[s := <[i := v]> (buf h s)]> h)
       else Panic.

(** Allocation of a new buffer at an address not yet in use. *)
Definition alloc (bs : list Z) : M loc :=
  λ h, let l := fresh (dom h) in Ok (l, <[l := bs]> h).

(** [make([]byte, size, size)]: a new zeroed buffer. *)
Definition make (size : nat) : M loc := alloc (replicate size 0).

(** The builtin [copy(dst, src)]: copies [min(len(dst), len(src))] bytes. *)
Definition copy (dst src : loc) : M nat :=
  λ h, let d := buf h dst in
       let s := buf h src in
       let n := (length d `min` length s)%nat in
       Ok (n, <[dst := take n s ++ drop n d]> h).

(** ** [uint8] arithmetic *)

Definition is_byte (z : Z) : Prop := 0 ≤ z < 256.
Definition wf_bytes (bs : list Z) : Prop := Forall is_byte bs.

Definition wrap8 (z : Z) : Z := z `mod` 256.

(** [^m] on [uint8] *)
Definition not8 (m : Z) : Z := wrap8 (Z.lnot m).

(** ** The parts of Go's [bytes] package that the code calls *)

(** [bytes.Equal] *)
Fixpoint bytes_Equal (a b : list Z) : bool :=
  match a, b with
  | [], [] => true
  | x :: a', y :: b' => (x =? y) && bytes_Equal a' b'
  | _, _ => false
  end.

(** [bytes.Compare]: lexicographic, with result -1, 0 or +1. *)
Fixpoint bytes_Compare (a b : list Z) : Z :=
  match a, b with
  | [], [] => 0
  | [], _ :: _ => -1
  | _ :: _, [] => 1
  | x :: a', y :: b' =>
      if x <? y then -1
      else if y <? x then 1
      else bytes_Compare a' b'
  end.

(** ** Package constants *)

Definition IPv4Size : nat := 4.
Definition IPv6Size : nat := 16.

Definition V4InV6Prefix : list Z := [0; 0; 0; 0; 0; 0; 0; 0; 0; 0; 0xff; 0xff].
Definition MaxIPv4 : list Z := [0xff; 0xff; 0xff; 0xff].
Definition MaxIPv4In6 : list Z :=
  [0; 0; 0; 0; 0; 0; 0; 0; 0; 0; 0xff; 0xff; 0xff; 0xff; 0xff; 0xff].
Definition MaxIPv6 : list Z :=
  [0xff; 0xff; 0xff; 0xff; 0xff; 0xff; 0xff; 0xff;
   0xff; 0xff; 0xff; 0xff; 0xff; 0xff; 0xff; 0xff].

(** ** CopyIP *)

Definition CopyIP (ip : loc) : M loc :=
  size ← len ip;
  result ← make size;
  _ ← copy result ip;
  mret result.

(** ** Next *)

(** The loop [for i := size - 1; i >= 0; i-- { ip[i]++; if ip[i] > 0 { break } }],
    with [n = i + 1] iterations still possible. *)
Fixpoint Next_loop (n : nat) (ip : loc) : M unit :=
  match n with
  | O => mret tt
  | S i =>
      b ← load ip i;
      _ ← store ip i (wrap8 (b + 1));
      b' ← load ip i;
      if 0 <? b' then mret tt else Next_loop i ip
  end.

Definition Next (ip : loc) : M bool :=
  size ← len ip;
  bs ← read ip;
  if (size =? IPv4Size)%nat && bytes_Equal bs MaxIPv4 then mret false
  else if (size =? IPv6Size)%nat
          && (bytes_Equal bs MaxIPv4In6 || bytes_Equal bs MaxIPv6)
  then mret false
  else
    _ ← Next_loop size ip;
    mret true.

(** ** GetNetworkIPRange *)

Record IPNet : Type := { IP : loc; Mask : loc }.

(** [for i := range s { body i }] with [count] indices left from [i]. *)
Fixpoint for_range (i count : nat) (body : nat → M unit) : M unit :=
  match count with
  | O => mret tt
  | S c => _ ← body i; for_range (S i) c body
  end.

(** The two assignments in the body of the loop. *)
Definition GetNetworkIPRange_body (n : IPNet) (first last : loc) (i : nat)
  : M unit :=
  a ← load (IP n) i;
  m ← load (Mask n) i;
  _ ← store first i (Z.land a m);
  a' ← load (IP n) i;
  m' ← load (Mask n) i;
  store last i (Z.lor a' (not8 m')).

Definition GetNetworkIPRange (n : IPNet) : M (loc * loc) :=
  size ← len (IP n);
  first ← make size;
  last ← make size;
  count ← len (IP n);
  _ ← for_range 0 count (GetNetworkIPRange_body n first last);
  mret (first, last).

(** ** CompareIPs *)

(** The value built by [fmt.Errorf] from the two addresses. *)
Inductive error : Type :=
  | ErrDifferentSizes (a b : list Z).

(** Go returns the pair [(int, error)]; a nil error is [None]. *)
Definition CompareIPs (a b : loc) : M (Z * option error) :=
  la ← len a;
  lb ← len b;
  if negb (la =? lb)%nat then
    ba ← read a;
    bb ← read b;
    mret (0, Some (ErrDifferentSizes ba bb))
  else
    ba ← read a;
    bb ← read b;
    mret (bytes_Compare ba bb, None).

(** ** The range iterator *)

(** The interface [IPRangeIterator]: one method, [Next() (ip net.IP, ok bool)]. *)
Class IPRangeIterator (T : Type) : Type :=
  { IPRangeIterator_Next : T → M (loc * bool) }.

(** The struct's three fields are never reassigned: only the buffer behind
    [next] changes.  [first] and [last] are the caller's slices, not copies. *)
Record ipRangeIterator : Type :=
  { first : loc; last : loc; next : loc }.

Definition GetIPRangeIterator (first last : loc) : M ipRangeIterator :=
  c ← CopyIP first;
  mret {| first := first; last := last; next := c |}.

(** The method [func (iter *ipRangeIterator) Next() (ip net.IP, ok bool)].
    The call [Next(iter.next)] is made for its effect; its result is dropped. *)
Definition iter_Next (iter : ipRangeIterator) : M (loc * bool) :=
  result ← CopyIP (next iter);
  '(check, err) ← CompareIPs (next iter) (last iter);
  if bool_decide (err = None) && (check <=? 0) then
    _ ← Next (next iter);
    mret (result, true)
  else mret (result, false).

#[global] Instance ipRangeIterator_IPRangeIterator
  : IPRangeIterator ipRangeIterator :=
  {| IPRangeIterator_Next := iter_Next |}.

(** The method [String] only formats the three addresses and is left out. *)

(** ** Observing a run *)

(** What a caller sees of [Next]: the flag and the buffer afterwards. *)
Definition observe_Next (ip : loc) : M (list Z * bool) :=
  ok ← Next ip;
  bs ← read ip;
  mret (bs, ok).

(** One retrieval through the interface, with the returned address read at
    the moment it is handed back. *)
Definition iter_Next_value {T} `{IPRangeIterator T} (iter : T)
  : M (list Z * bool) :=
  '(ip, ok) ← IPRangeIterator_Next iter;
  bs ← read ip;
  mret (bs, ok).

(** [k] successive retrievals on the same iterator. *)
Fixpoint iter_collect {T} `{IPRangeIterator T} (k : nat) (iter : T)
  : M (list (list Z * bool)) :=
  match k with
  | O => mret []
  | S k' =>
      o ← iter_Next_value iter;
      rest ← iter_collect k' iter;
      mret (o :: rest)
  end.

(** The value component of an outcome, if the call did not panic. *)
Definition value_of {A} (r : result (A * heap)) : option A :=
  match r with
  | Ok (a, _) => Some a
  | Panic => None
  end.

(** ** Reading a buffer as a big-endian unsigned integer *)

Definition be_value (bs : list Z) : Z :=
  foldl (λ acc b, acc * 256 + b) 0 bs.

(** ** Buffer-level counterparts of the stateful code *)

(** What [Next_loop] does to the bytes ([Next_loop_spec] links the two). *)
Fixpoint incr_loop (n : nat) (bs : list Z) : list Z :=
  match n with
  | O => bs
  | S i =>
      match bs !! i with
      | Some b =>
          let bs' := <[i := wrap8 (b + 1)]> bs in
          if 0 <? wrap8 (b + 1) then bs' else incr_loop i bs'
      | None => bs
      end
  end.

(** The two guards at the head of [Next]. *)
Definition known_max (bs : list Z) : bool :=
  ((length bs =? IPv4Size)%nat && bytes_Equal bs MaxIPv4)
  || ((length bs =? IPv6Size)%nat
      && (bytes_Equal bs MaxIPv4In6 || bytes_Equal bs MaxIPv6)).

(** What [Next] does to the bytes, and its result ([Next_spec]). *)
Definition Next_bytes (bs : list Z) : list Z * bool :=
  if known_max bs then (bs, false) else (incr_loop (length bs) bs, true).

(** The numeric result of a comparison that reported no error. *)
Definition ordering (h : heap) (a b : loc) : option Z :=
  match CompareIPs a b h with
  | Ok ((r, None), _) => Some r
  | _ => None
  end.

(** The network address and the highest address, byte by byte. *)
Definition network_first (addr mask : list Z) : list Z :=
  zip_with Z.land addr mask.

Definition network_last (addr mask : list Z) : list Z :=
  zip_with (λ a m, Z.lor a (not8 m)) addr mask.

(** Whether a retrieval with cursor [c] and upper bound [L] reports a value:
    the comparison raised no error and did not come out positive. *)
Definition advances (c L : list Z) : bool :=
  bool_decide (length c = length L) && (bytes_Compare c L <=? 0).

(** The cursor after one retrieval. *)
Definition step_cursor (c L : list Z) : list Z :=
  if advances c L then (Next_bytes c).1 else c.

(** The outcomes of [k] successive retrievals, on cursor and bound bytes. *)
Fixpoint collect_bytes (k : nat) (c L : list Z) : list (list Z * bool) :=
  match k with
  | O => []
  | S k' => (c, advances c L) :: collect_bytes k' (step_cursor c L) L
  end.

Definition cursor_after (k : nat) (c L : list Z) : list Z :=
  Nat.iter k (λ x, step_cursor x L) c.

(** ** Vocabulary of the statements *)

(** Number of values a buffer of [n] bytes can hold. *)
Definition capacity (n : nat) : Z := 256 ^ Z.of_nat n.

(** Big-endian encoding of [v] on [n] bytes. *)
Fixpoint be_bytes (n : nat) (v : Z) : list Z :=
  match n with
  | O => []
  | S n' => be_bytes n' (v `div` 256) ++ [v `mod` 256]
  end.

Definition sign_of_comparison (c : comparison) : Z :=
  match c with
  | Lt => -1
  | Eq => 0
  | Gt => 1
  end.

Definition cursor_exceeds_last (h : heap) (iter : ipRangeIterator) : Prop :=
  ∃ r, ordering h (next iter) (last iter) = Some r ∧ 0 < r.

(** No known maximum of the bound's width lies in the range, and the upper
    bound is not all-0xFF. *)
Definition free_of_maxima (A B : list Z) : Prop :=
  B ≠ replicate (length B) 255
  ∧ ∀ m, m ∈ [MaxIPv4; MaxIPv4In6; MaxIPv6] → length m = length B →
         ¬ (be_value A ≤ be_value m ≤ be_value B).

(** ** Callers and sample heaps *)

(** A caller that owns one buffer and runs [f] on it. *)
Definition on_buffer {A} (bs : list Z) (f : loc → M A) : option A :=
  value_of ((ip ← alloc bs; f ip) ∅).

(** A caller that owns two addresses and builds an iterator over them. *)
Definition range_over (A B : list Z) : M ipRangeIterator :=
  a ← alloc A;
  b ← alloc B;
  GetIPRangeIterator a b.

Definition heap_192_168_0_255 : heap := {[ 1%positive := [192; 168; 0; 255] ]}.

Definition heap_ff_ff_ff : heap := {[ 1%positive := [255; 255; 255] ]}.

Definition heap_three_addresses : heap :=
  {[ 1%positive := [192; 168; 0; 0];
     2%positive := [192; 168; 0; 1];
     3%positive := [192; 168; 1; 0] ]}.

Definition heap_network_28 : heap :=
  {[ 1%positive := [192; 168; 216; 192]; 2%positive := [255; 255; 255; 240] ]}.

Definition network_28 : IPNet := {| IP := 1%positive; Mask := 2%positive |}.

Definition heap_empty_range : heap :=
  {[ 1%positive := [192; 168; 0; 20]; 2%positive := [192; 168; 0; 10] ]}.

(** ** The iterator's description *)

Section description.
(** [net.IP.String], which [fmt.Sprintf] applies to each [%v] argument; it
    belongs to Go's [net] package and is taken as given. *)
Variable IP_String : list Z → string.

(** The method [func (iter *ipRangeIterator) String() string]. *)
Definition iter_String (iter : ipRangeIterator) : M string :=
  '(res, _) ← CompareIPs (last iter) (next iter);
  if res <? 0 then
    f ← read (first iter);
    l ← read (last iter);
    mret ("IPRangeIterator(" +:+ IP_String f +:+ " -> " +:+ IP_String l
          +:+ ", next: none)")
  else
    f ← read (first iter);
    l ← read (last iter);
    n ← read (next iter);
    mret ("IPRangeIterator(" +:+ IP_String f +:+ " -> " +:+ IP_String l
          +:+ ", next: " +:+ IP_String n +:+ ")").
End description.

(** ** Further callers and sample data *)

(** The 256 values of a byte. *)
Definition all_bytes : list Z := seqZ 0 256.

(** Decimal bytes separated by dots, which is what [net.IP.String] prints
    for a 4-byte address; used for sample runs of [iter_String]. *)
Definition dotted (bs : list Z) : string :=
  String.concat "." (pretty <$> bs).

Definition heap_short_mask : heap :=
  {[ 1%positive := [192; 168; 216; 192]; 2%positive := [255; 255] ]}.

Definition heap_long_mask : heap :=
  {[ 1%positive := [192; 168];
     2%positive := [255; 240; 0; 0] ]}.

Definition heap_network_32 : heap :=
  {[ 1%positive := [192; 168; 0; 7]; 2%positive := [255; 255; 255; 255] ]}.

Definition heap_mixed_widths : heap :=
  {[ 1%positive := [255; 255; 255; 255]; 2%positive := MaxIPv4In6 ]}.

(** ** Tactics *)

Ltac unfold_M :=
  unfold mbind, M_bind, bind, mret, M_ret, ret, len, read, make, alloc in *.

Ltac solve_wf_bytes :=
  unfold wf_bytes;
  repeat (apply Forall_cons; split; [unfold is_byte; lia |]);
  apply Forall_nil_2.

Ltac solve_wf_buf :=
  match goal with
  | |- wf_bytes (buf ?h ?l) =>
      let bs := eval vm_compute in (buf h l) in
      change (wf_bytes bs); solve_wf_bytes
  end.

(** Replaces the reading of every literal buffer by its value. *)
Ltac eval_be_value :=
  repeat match goal with
         | |- context [be_value ?l] =>
             let v := eval vm_compute in (be_value l) in
             change (be_value l) with v
         end.

(** * Properties *)

(** ** Examples from the package's tests *)

Example Next_192_168_0_255 :
  on_buffer [192; 168; 0; 255] observe_Next = Some ([192; 168; 1; 0], true).
Proof. vm_compute. reflexivity. Qed.

Example Next_255_255_255_255 :
  on_buffer [255; 255; 255; 255] observe_Next
  = Some ([255; 255; 255; 255], false).
Proof. vm_compute. reflexivity. Qed.

Example Next_v4_in_v6_max :
  on_buffer MaxIPv4In6 observe_Next = Some (MaxIPv4In6, false).
Proof. vm_compute. reflexivity. Qed.

Example Next_v6_one :
  on_buffer [0; 0; 0; 0; 0; 0; 0; 0; 0; 0; 0; 0; 0; 0; 0; 1] observe_Next
  = Some ([0; 0; 0; 0; 0; 0; 0; 0; 0; 0; 0; 0; 0; 0; 0; 2], true).
Proof. vm_compute. reflexivity. Qed.

Example GetNetworkIPRange_192_168_0_0_28 :
  value_of ((ip ← alloc [192; 168; 0; 0];
             mask ← alloc [255; 255; 255; 240];
             '(f, l) ← GetNetworkIPRange {| IP := ip; Mask := mask |};
             bf ← read f; bl ← read l; mret (bf, bl)) ∅)
  = Some ([192; 168; 0; 0], [192; 168; 0; 15]).
Proof. vm_compute. reflexivity. Qed.

Example iterate_192_168_0_1_to_5 :
  value_of ((a ← alloc [192; 168; 0; 1];
             b ← alloc [192; 168; 0; 5];
             it ← GetIPRangeIterator a b;
             iter_collect 6 it) ∅)
  = Some [([192; 168; 0; 1], true); ([192; 168; 0; 2], true);
          ([192; 168; 0; 3], true); ([192; 168; 0; 4], true);
          ([192; 168; 0; 5], true); ([192; 168; 0; 6], false)].
Proof. vm_compute. reflexivity. Qed.

Example iterate_empty_range :
  value_of ((a ← alloc [192; 168; 0; 20];
             b ← alloc [192; 168; 0; 10];
             it ← GetIPRangeIterator a b;
             iter_collect 2 it) ∅)
  = Some [([192; 168; 0; 20], false); ([192; 168; 0; 20], false)].
Proof. vm_compute. reflexivity. Qed.

(** ** The monad and the heap primitives *)

Lemma buf_lookup (h : heap) (l : loc) (bs : list Z) :
  h !! l = Some bs → buf h l = bs.
Proof. unfold buf. by intros ->. Qed.

Lemma buf_unallocated (h : heap) (l : loc) : h !! l = None → buf h l = [].
Proof. unfold buf. by intros ->. Qed.

Lemma buf_insert_eq (h : heap) (l : loc) (bs : list Z) :
  buf (<[l := bs]> h) l = bs.
Proof. unfold buf. by rewrite lookup_insert_eq. Qed.

Lemma buf_insert_ne (h : heap) (l l' : loc) (bs : list Z) :
  l ≠ l' → buf (<[l := bs]> h) l' = buf h l'.
Proof. intros Hne. unfold buf. by rewrite lookup_insert_ne. Qed.

Lemma fresh_unallocated (h : heap) : h !! fresh (dom h) = None.
Proof. apply not_elem_of_dom, is_fresh. Qed.

Lemma fresh_ne_allocated (h : heap) (l : loc) :
  is_Some (h !! l) → fresh (dom h) ≠ l.
Proof.
  intros [bs Hl] Heq. rewrite <- Heq, fresh_unallocated in Hl. discriminate.
Qed.

Lemma load_spec (h : heap) (s : loc) (i : nat) (b : Z) :
  buf h s !! i = Some b → load s i h = Ok (b, h).
Proof. unfold load. by intros ->. Qed.

Lemma store_spec (h : heap) (s : loc) (i : nat) (v : Z) :
  (i < length (buf h s))%nat →
  store s i v h = Ok (tt, <[s := <[i := v]> (buf h s)]> h).
Proof. intros Hi. unfold store. by rewrite decide_True. Qed.

(** [CopyIP] allocates one new buffer holding the bytes of its argument and
    touches nothing else. *)
Lemma CopyIP_spec (h : heap) (ip : loc) :
  CopyIP ip h = Ok (fresh (dom h), <[fresh (dom h) := buf h ip]> h).
Proof.
  unfold CopyIP, copy. unfold_M. cbn.
  set (l := fresh (dom h)). rewrite buf_insert_eq.
  assert (Hsrc : buf (<[l := replicate (length (buf h ip)) 0]> h) ip = buf h ip).
  { destruct (decide (l = ip)) as [<- | Hne].
    - rewrite buf_insert_eq, (buf_unallocated h l) by apply fresh_unallocated.
      done.
    - by apply buf_insert_ne. }
  rewrite Hsrc, length_replicate, Nat.min_id, insert_insert_eq.
  rewrite firstn_all, drop_ge, app_nil_r; [done |].
  by rewrite length_replicate.
Qed.

(** ** Big-endian reading *)

Lemma capacity_0 : capacity 0 = 1.
Proof. reflexivity. Qed.

Lemma capacity_S (n : nat) : capacity (S n) = 256 * capacity n.
Proof. unfold capacity. rewrite Nat2Z.inj_succ, Z.pow_succ_r; lia. Qed.

Lemma capacity_pos (n : nat) : 0 < capacity n.
Proof. unfold capacity. apply Z.pow_pos_nonneg; lia. Qed.

Lemma capacity_add (n m : nat) :
  capacity (n + m) = capacity n * capacity m.
Proof. unfold capacity. rewrite Nat2Z.inj_add, Z.pow_add_r; lia. Qed.

Lemma be_value_snoc (bs : list Z) (b : Z) :
  be_value (bs ++ [b]) = be_value bs * 256 + b.
Proof. unfold be_value. by rewrite foldl_snoc. Qed.

Lemma be_value_foldl (acc : Z) (bs : list Z) :
  foldl (λ a b, a * 256 + b) acc bs = acc * capacity (length bs) + be_value bs.
Proof.
  induction bs as [| b bs IH] using rev_ind.
  - cbn. rewrite capacity_0. lia.
  - rewrite be_value_snoc, foldl_snoc, IH, length_app, Nat.add_1_r, capacity_S.
    lia.
Qed.

Lemma be_value_cons (b : Z) (bs : list Z) :
  be_value (b :: bs) = b * capacity (length bs) + be_value bs.
Proof.
  unfold be_value at 1. cbn [foldl]. rewrite be_value_foldl. lia.
Qed.

Lemma be_value_bounds (bs : list Z) :
  wf_bytes bs → 0 ≤ be_value bs < capacity (length bs).
Proof.
  induction bs as [| b bs IH] using rev_ind; intros Hwf.
  - cbn. rewrite capacity_0. lia.
  - apply Forall_app in Hwf as [Hbs Hb]. rewrite Forall_singleton in Hb.
    specialize (IH Hbs). unfold is_byte in Hb.
    rewrite be_value_snoc, length_app, Nat.add_1_r, capacity_S. lia.
Qed.

Lemma be_value_replicate_ff (n : nat) :
  be_value (replicate n 255) = capacity n - 1.
Proof.
  induction n as [| n IH].
  - reflexivity.
  - rewrite replicate_S_end, be_value_snoc, IH, capacity_S. lia.
Qed.

Lemma be_value_replicate_0 (n : nat) : be_value (replicate n 0) = 0.
Proof.
  induction n as [| n IH]; [done |].
  rewrite replicate_S_end, be_value_snoc, IH. lia.
Qed.

(** Equal-width buffers with the same reading are the same buffer. *)
Lemma be_value_inj (a b : list Z) :
  wf_bytes a → wf_bytes b → length a = length b →
  be_value a = be_value b → a = b.
Proof.
  revert b. induction a as [| x a IH]; intros [| y b] Ha Hb Hlen Hv;
    try done.
  apply Forall_cons in Ha as [Hx Ha]. apply Forall_cons in Hb as [Hy Hb].
  injection Hlen as Hlen. rewrite !be_value_cons, Hlen in Hv.
  pose proof (be_value_bounds a Ha) as Ba.
  pose proof (be_value_bounds b Hb) as Bb. rewrite Hlen in Ba.
  unfold is_byte in *.
  assert (x = y) as -> by nia.
  f_equal. apply IH; [done .. | lia].
Qed.

Lemma wf_bytes_replicate_ff (n : nat) : wf_bytes (replicate n 255).
Proof. apply Forall_replicate. unfold is_byte. lia. Qed.

Lemma be_value_max_iff (bs : list Z) :
  wf_bytes bs →
  be_value bs = capacity (length bs) - 1 ↔ bs = replicate (length bs) 255.
Proof.
  intros Hwf. split.
  - intros Hv. apply be_value_inj; [done | apply wf_bytes_replicate_ff | |].
    + by rewrite length_replicate.
    + by rewrite be_value_replicate_ff.
  - intros ->. by rewrite length_replicate, be_value_replicate_ff.
Qed.

Lemma wrap8_is_byte (z : Z) : is_byte (wrap8 z).
Proof. unfold is_byte, wrap8. apply Z.mod_pos_bound. lia. Qed.

(** ** bytes.Equal and bytes.Compare *)

Lemma bytes_Equal_eq (a b : list Z) : bytes_Equal a b = true ↔ a = b.
Proof.
  revert b. induction a as [| x a IH]; intros [| y b]; cbn; try done.
  rewrite andb_true_iff, IH, Z.eqb_eq. split; [by intros [-> ->] | by intros [= -> ->]].
Qed.

Lemma bytes_Equal_neq (a b : list Z) : bytes_Equal a b = false ↔ a ≠ b.
Proof.
  by rewrite <- not_true_iff_false, bytes_Equal_eq.
Qed.

(** On equal-width buffers the lexicographic comparison is the comparison
    of the big-endian readings. *)
Lemma bytes_Compare_be_value (a b : list Z) :
  wf_bytes a → wf_bytes b → length a = length b →
  bytes_Compare a b = sign_of_comparison (be_value a ?= be_value b).
Proof.
  revert b. induction a as [| x a IH]; intros [| y b] Ha Hb Hlen;
    try done.
  apply Forall_cons in Ha as [Hx Ha]. apply Forall_cons in Hb as [Hy Hb].
  injection Hlen as Hlen. cbn [bytes_Compare].
  rewrite !be_value_cons, Hlen.
  pose proof (be_value_bounds a Ha) as Ba.
  pose proof (be_value_bounds b Hb) as Bb. rewrite Hlen in Ba.
  unfold is_byte in *.
  destruct (Z.ltb_spec x y) as [Hxy | Hxy].
  - assert (x * capacity (length b) + be_value a < y * capacity (length b) + be_value b)
      as ->%Z.compare_lt_iff by nia. done.
  - destruct (Z.ltb_spec y x) as [Hyx | Hyx].
    + assert (y * capacity (length b) + be_value b < x * capacity (length b) + be_value a)
        as ->%Z.compare_gt_iff by nia. done.
    + assert (x = y) as -> by lia. rewrite IH by done.
      f_equal. symmetry. apply Z.add_compare_mono_l.
Qed.

Lemma bytes_Compare_range (a b : list Z) :
  bytes_Compare a b = -1 ∨ bytes_Compare a b = 0 ∨ bytes_Compare a b = 1.
Proof.
  revert b. induction a as [| x a IH]; intros [| y b]; cbn; auto.
  destruct (x <? y); auto. destruct (y <? x); auto.
Qed.

(** ** The increment loop *)

Lemma wf_bytes_insert (bs : list Z) (i : nat) (v : Z) :
  wf_bytes bs → is_byte v → wf_bytes (<[i := v]> bs).
Proof. intros Hwf Hv. by apply Forall_insert. Qed.

(** After the loop has run over the last [n] positions of the first [n]
    bytes, those bytes read one more than before, modulo their capacity,
    and the bytes behind them are as they were. *)
Lemma incr_loop_spec (n : nat) (bs : list Z) :
  wf_bytes bs → (n ≤ length bs)%nat →
  length (incr_loop n bs) = length bs
  ∧ wf_bytes (incr_loop n bs)
  ∧ drop n (incr_loop n bs) = drop n bs
  ∧ be_value (take n (incr_loop n bs))
    = (be_value (take n bs) + 1) `mod` capacity n.
Proof.
  revert bs. induction n as [| i IH]; intros bs Hwf Hn.
  - cbn. rewrite !drop_0. done.
  - destruct (lookup_lt_is_Some_2 bs i) as [b Hb]; [lia |].
    assert (Hbyte : is_byte b) by (eapply Forall_lookup_1; eauto).
    cbn [incr_loop]. rewrite Hb. cbn zeta.
    set (w := wrap8 (b + 1)). set (bs1 := <[i := w]> bs).
    assert (Hwf1 : wf_bytes bs1) by (apply wf_bytes_insert, wrap8_is_byte; done).
    assert (Hlen1 : length bs1 = length bs) by apply length_insert.
    assert (Hpre : be_value (take (S i) bs) = be_value (take i bs) * 256 + b).
    { by rewrite (take_S_r _ _ _ Hb), be_value_snoc. }
    pose proof (be_value_bounds (take i bs)) as Hbound.
    rewrite length_take, Nat.min_l in Hbound by lia.
    specialize (Hbound (Forall_take _ _ _ Hwf)).
    pose proof (wrap8_is_byte (b + 1)) as Hwb. fold w in Hwb.
    unfold is_byte in Hbyte, Hwb. rewrite Hpre, capacity_S.
    destruct (Z.ltb_spec 0 w) as [Hw | Hw].
    + assert (w = b + 1) as Hweq.
      { subst w. unfold wrap8 in *.
        destruct (decide (b = 255)) as [-> | ?]; [done |].
        apply Z.mod_small. lia. }
      split_and!; [done | done | |].
      * subst bs1. by rewrite drop_insert_lt by lia.
      * assert (bs1 !! i = Some w) as Hi.
        { subst bs1. apply list_lookup_insert_eq. lia. }
        rewrite (take_S_r _ _ _ Hi), be_value_snoc. subst bs1.
        rewrite take_insert_ge by lia. rewrite Hweq.
        rewrite Z.mod_small; lia.
    + assert (w = 0 ∧ b = 255) as [Hw0 ->].
      { split; [lia |]. subst w. unfold wrap8 in *.
        destruct (decide (b = 255)) as [-> | ?]; [done |].
        rewrite Z.mod_small in Hw; lia. }
      destruct (IH bs1 Hwf1) as (Hl & Hwfr & Hdrop & Hval); [lia |].
      set (r := incr_loop i bs1) in *.
      assert (Hi1 : bs1 !! i = Some w).
      { subst bs1. apply list_lookup_insert_eq. lia. }
      assert (Hdrop1 : drop i bs1 = w :: drop (S i) bs).
      { rewrite (drop_S _ _ _ Hi1). subst bs1.
        by rewrite drop_insert_lt by lia. }
      assert (Hri : r !! i = Some w).
      { pose proof (lookup_drop r i 0) as Hld.
        rewrite Nat.add_0_r, Hdrop, Hdrop1 in Hld. done. }
      split_and!; [lia | done | |].
      * rewrite (drop_S _ _ _ Hri), Hdrop1 in Hdrop. by injection Hdrop.
      * rewrite (take_S_r _ _ _ Hri), be_value_snoc, Hval, Hw0.
        subst bs1. rewrite take_insert_ge by lia.
        replace (be_value (take i bs) * 256 + 255 + 1)
          with (256 * (be_value (take i bs) + 1)) by lia.
        rewrite Z.mul_mod_distr_l; [lia | | lia].
        pose proof (capacity_pos i). lia.
Qed.

(** The whole buffer after a full run of the loop. *)
Lemma incr_loop_full (bs : list Z) :
  wf_bytes bs →
  length (incr_loop (length bs) bs) = length bs
  ∧ wf_bytes (incr_loop (length bs) bs)
  ∧ be_value (incr_loop (length bs) bs)
    = (be_value bs + 1) `mod` capacity (length bs).
Proof.
  intros Hwf.
  destruct (incr_loop_spec (length bs) bs Hwf) as (Hl & Hwfr & _ & Hv); [lia |].
  split_and!; [done | done |].
  rewrite <- Hl in Hv at 1. by rewrite !firstn_all in Hv.
Qed.

Lemma incr_loop_no_wrap (bs : list Z) :
  wf_bytes bs → bs ≠ replicate (length bs) 255 →
  be_value (incr_loop (length bs) bs) = be_value bs + 1.
Proof.
  intros Hwf Hne. destruct (incr_loop_full bs Hwf) as (_ & _ & ->).
  pose proof (be_value_bounds bs Hwf) as Hb.
  pose proof (be_value_max_iff bs Hwf) as Hmax.
  apply Z.mod_small. split; [lia |].
  destruct (decide (be_value bs = capacity (length bs) - 1)) as [Heq | ?];
    [| lia].
  by apply Hmax in Heq.
Qed.

Lemma incr_loop_wrap (n : nat) :
  incr_loop n (replicate n 255) = replicate n 0.
Proof.
  pose proof (incr_loop_full (replicate n 255) (wf_bytes_replicate_ff n))
    as (Hl & Hwf & Hv).
  rewrite length_replicate in *.
  apply be_value_inj; try done.
  - apply Forall_replicate. unfold is_byte. lia.
  - by rewrite Hl, length_replicate.
  - rewrite Hv, be_value_replicate_ff, be_value_replicate_0.
    replace (capacity n - 1 + 1) with (capacity n) by lia.
    apply Z.mod_same. pose proof (capacity_pos n). lia.
Qed.

(** ** The maximum check *)

Lemma known_max_iff (bs : list Z) :
  known_max bs = true ↔ bs = MaxIPv4 ∨ bs = MaxIPv4In6 ∨ bs = MaxIPv6.
Proof.
  unfold known_max.
  rewrite orb_true_iff, !andb_true_iff, orb_true_iff, !bytes_Equal_eq.
  rewrite !Nat.eqb_eq. split.
  - intros [[_ ->] | [_ [-> | ->]]]; auto.
  - intros [-> | [-> | ->]]; cbn; auto.
Qed.

Lemma known_max_false_iff (bs : list Z) :
  known_max bs = false ↔ bs ≠ MaxIPv4 ∧ bs ≠ MaxIPv4In6 ∧ bs ≠ MaxIPv6.
Proof.
  rewrite <- not_true_iff_false, known_max_iff. tauto.
Qed.

Lemma known_max_other_width (bs : list Z) :
  length bs ≠ IPv4Size → length bs ≠ IPv6Size → known_max bs = false.
Proof.
  intros H4 H6. apply known_max_false_iff.
  split_and!; intros ->; by cbn in *.
Qed.

(** In the two recognised widths the check catches the all-0xFF buffer. *)
Lemma not_known_max_not_all_ff (bs : list Z) :
  length bs = IPv4Size ∨ length bs = IPv6Size →
  known_max bs = false → bs ≠ replicate (length bs) 255.
Proof.
  intros Hw (H4 & _ & H6)%known_max_false_iff Heq.
  destruct Hw as [Hw | Hw]; rewrite Hw in Heq; done.
Qed.

(** ** Next: the stateful code against its buffer-level counterpart *)

Lemma Next_loop_spec (n : nat) (ip : loc) (h : heap) (bs : list Z) :
  h !! ip = Some bs → (n ≤ length bs)%nat →
  Next_loop n ip h = Ok (tt, <[ip := incr_loop n bs]> h).
Proof.
  revert h bs. induction n as [| i IH]; intros h bs Hip Hn.
  - cbn. unfold_M. by rewrite insert_id.
  - destruct (lookup_lt_is_Some_2 bs i) as [b Hb]; [lia |].
    cbn [Next_loop incr_loop]. rewrite Hb. cbn zeta. unfold_M.
    pose proof (buf_lookup _ _ _ Hip) as Hbuf.
    rewrite (load_spec h ip i b) by by rewrite Hbuf.
    rewrite store_spec by (rewrite Hbuf; lia). rewrite Hbuf.
    set (bs1 := <[i := wrap8 (b + 1)]> bs).
    rewrite (load_spec _ ip i (wrap8 (b + 1))).
    2:{ rewrite buf_insert_eq. subst bs1. apply list_lookup_insert_eq. lia. }
    destruct (0 <? wrap8 (b + 1)); [done |].
    rewrite (IH _ bs1); [| apply lookup_insert_eq | subst bs1; rewrite length_insert; lia].
    by rewrite insert_insert_eq.
Qed.

Lemma Next_spec (ip : loc) (h : heap) (bs : list Z) :
  h !! ip = Some bs →
  Next ip h = Ok ((Next_bytes bs).2, <[ip := (Next_bytes bs).1]> h).
Proof.
  intros Hip. pose proof (buf_lookup _ _ _ Hip) as Hbuf.
  unfold Next, Next_bytes, known_max. unfold_M. rewrite Hbuf.
  destruct ((length bs =? IPv4Size)%nat && bytes_Equal bs MaxIPv4); cbn.
  { by rewrite insert_id. }
  destruct ((length bs =? IPv6Size)%nat
            && (bytes_Equal bs MaxIPv4In6 || bytes_Equal bs MaxIPv6)); cbn.
  { by rewrite insert_id. }
  by rewrite (Next_loop_spec _ _ _ bs).
Qed.

(** [Next] never indexes out of range, whatever the buffer. *)
Lemma Next_no_panic (ip : loc) (h : heap) : Next ip h ≠ Panic.
Proof.
  destruct (h !! ip) as [bs |] eqn:Hip.
  - by rewrite (Next_spec ip h bs).
  - unfold Next. unfold_M. rewrite (buf_unallocated h ip Hip). done.
Qed.

(** ** Next: successor, refusal and wrap-around *)

(** C1. For a 4-byte or 16-byte buffer that is none of the known maxima
    (all-0xFF of either width, or the IPv4-mapped all-0xFF form), [Next]
    rewrites the buffer in place so that its big-endian reading is exactly one
    more than before, keeps its width, and returns true.  For a buffer that is
    one of the known maxima it returns false and the heap, hence every byte of
    the buffer, is unchanged. *)
Theorem Next_successor_or_refusal (h : heap) (ip : loc) (bs : list Z) :
  h !! ip = Some bs → wf_bytes bs →
  length bs = IPv4Size ∨ length bs = IPv6Size →
  (bs ≠ MaxIPv4 ∧ bs ≠ MaxIPv4In6 ∧ bs ≠ MaxIPv6 →
   ∃ bs', Next ip h = Ok (true, <[ip := bs']> h)
          ∧ length bs' = length bs
          ∧ wf_bytes bs'
          ∧ be_value bs' = be_value bs + 1)
  ∧ (bs = MaxIPv4 ∨ bs = MaxIPv4In6 ∨ bs = MaxIPv6 →
     Next ip h = Ok (false, h)).
Proof.
  intros Hip Hwf Hwidth. rewrite (Next_spec ip h bs Hip). unfold Next_bytes.
  split.
  - intros Hmax%known_max_false_iff. rewrite Hmax. cbn.
    destruct (incr_loop_full bs Hwf) as (Hl & Hwfr & _).
    eexists. split_and!; [done .. |].
    by apply incr_loop_no_wrap, not_known_max_not_all_ff.
  - intros Hmax%known_max_iff. rewrite Hmax. cbn. by rewrite insert_id.
Qed.

Lemma Next_successor_or_refusal_witness :
  (([192; 168; 0; 255] : list Z) ≠ MaxIPv4
   ∧ [192; 168; 0; 255] ≠ MaxIPv4In6 ∧ [192; 168; 0; 255] ≠ MaxIPv6 →
   ∃ bs', Next 1%positive heap_192_168_0_255
          = Ok (true, <[1%positive := bs']> heap_192_168_0_255)
          ∧ length bs' = 4%nat
          ∧ wf_bytes bs'
          ∧ be_value bs' = be_value [192; 168; 0; 255] + 1)
  ∧ (([192; 168; 0; 255] : list Z) = MaxIPv4
     ∨ [192; 168; 0; 255] = MaxIPv4In6 ∨ [192; 168; 0; 255] = MaxIPv6 →
     Next 1%positive heap_192_168_0_255 = Ok (false, heap_192_168_0_255)).
Proof.
  apply (Next_successor_or_refusal heap_192_168_0_255 1%positive
           [192; 168; 0; 255]).
  - reflexivity.
  - solve_wf_bytes.
  - left. reflexivity.
Defined.

(** C8. For a buffer whose width is neither 4 nor 16, [Next] makes no
    maximum check: it never panics, always returns true, and leaves a buffer
    whose reading is one more than before modulo the capacity of the width.
    In particular an all-0xFF buffer of such a width becomes all-zero. *)
Theorem Next_wraps_on_other_widths (h : heap) (ip : loc) (bs : list Z) :
  h !! ip = Some bs → wf_bytes bs →
  length bs ≠ IPv4Size → length bs ≠ IPv6Size →
  (∃ bs', Next ip h = Ok (true, <[ip := bs']> h)
          ∧ length bs' = length bs
          ∧ be_value bs' = (be_value bs + 1) `mod` capacity (length bs))
  ∧ (bs = replicate (length bs) 255 →
     Next ip h = Ok (true, <[ip := replicate (length bs) 0]> h)).
Proof.
  intros Hip Hwf H4 H6. rewrite (Next_spec ip h bs Hip). unfold Next_bytes.
  rewrite known_max_other_width by done. cbn. split.
  - destruct (incr_loop_full bs Hwf) as (Hl & _ & Hv). eauto.
  - intros Hff. rewrite Hff at 2. rewrite Hff at 2.
    rewrite length_replicate. by rewrite incr_loop_wrap.
Qed.

Lemma Next_wraps_on_other_widths_witness :
  (∃ bs', Next 1%positive heap_ff_ff_ff
          = Ok (true, <[1%positive := bs']> heap_ff_ff_ff)
          ∧ length bs' = 3%nat
          ∧ be_value bs' = (be_value [255; 255; 255] + 1) `mod` capacity 3)
  ∧ (([255; 255; 255] : list Z) = replicate 3 255 →
     Next 1%positive heap_ff_ff_ff
     = Ok (true, <[1%positive := replicate 3 0]> heap_ff_ff_ff)).
Proof.
  apply (Next_wraps_on_other_widths heap_ff_ff_ff 1%positive [255; 255; 255]).
  - reflexivity.
  - solve_wf_bytes.
  - discriminate.
  - discriminate.
Defined.

(** ** CompareIPs *)

Lemma CompareIPs_spec (h : heap) (a b : loc) :
  CompareIPs a b h
  = Ok (if decide (length (buf h a) = length (buf h b))
        then (bytes_Compare (buf h a) (buf h b), None)
        else (0, Some (ErrDifferentSizes (buf h a) (buf h b))), h).
Proof.
  unfold CompareIPs. unfold_M.
  destruct (Nat.eqb_spec (length (buf h a)) (length (buf h b))) as [Heq | Hne];
    cbn.
  - by rewrite decide_True.
  - by rewrite decide_False.
Qed.

Lemma ordering_equal_width (h : heap) (a b : loc) :
  wf_bytes (buf h a) → wf_bytes (buf h b) →
  length (buf h a) = length (buf h b) →
  ordering h a b
  = Some (sign_of_comparison (be_value (buf h a) ?= be_value (buf h b))).
Proof.
  intros Ha Hb Hlen. unfold ordering.
  rewrite CompareIPs_spec, decide_True by done.
  by rewrite bytes_Compare_be_value.
Qed.

Lemma sign_of_comparison_opp (x y : Z) :
  sign_of_comparison (y ?= x) = - sign_of_comparison (x ?= y).
Proof. rewrite (Z.compare_antisym x y). by destruct (x ?= y). Qed.

Lemma sign_of_comparison_nonpos (x y : Z) :
  sign_of_comparison (x ?= y) ≤ 0 ↔ x ≤ y.
Proof. destruct (Z.compare_spec x y); cbn; lia. Qed.

Lemma sign_of_comparison_neg (x y : Z) :
  sign_of_comparison (x ?= y) < 0 ↔ x < y.
Proof. destruct (Z.compare_spec x y); cbn; lia. Qed.

Lemma sign_of_comparison_zero (x y : Z) :
  sign_of_comparison (x ?= y) = 0 ↔ x = y.
Proof. destruct (Z.compare_spec x y); cbn; lia. Qed.

(** C4. On equal-width addresses [CompareIPs] reports no error and its
    result is the three-way comparison of the two big-endian readings.  It is
    zero on identical arguments (and only on equal contents), swapping the
    arguments negates it, and it is transitive, both in its weak and in its
    strict form. *)
Theorem CompareIPs_total_order (h : heap) (a b c : loc) :
  wf_bytes (buf h a) → wf_bytes (buf h b) → wf_bytes (buf h c) →
  length (buf h a) = length (buf h b) →
  length (buf h b) = length (buf h c) →
  ∃ ab bc ac,
    CompareIPs a b h = Ok ((ab, None), h)
    ∧ ordering h a b = Some ab ∧ ordering h b c = Some bc
    ∧ ordering h a c = Some ac
    ∧ ab = sign_of_comparison (be_value (buf h a) ?= be_value (buf h b))
    ∧ (ab < 0 ↔ be_value (buf h a) < be_value (buf h b))
    ∧ (ab = 0 ↔ be_value (buf h a) = be_value (buf h b))
    ∧ (0 < ab ↔ be_value (buf h b) < be_value (buf h a))
    ∧ ordering h a a = Some 0
    ∧ (ab = 0 ↔ buf h a = buf h b)
    ∧ ordering h b a = Some (- ab)
    ∧ (ab ≤ 0 → bc ≤ 0 → ac ≤ 0)
    ∧ (ab < 0 → bc ≤ 0 → ac < 0)
    ∧ (ab ≤ 0 → bc < 0 → ac < 0).
Proof.
  intros Ha Hb Hc Hab Hbc.
  exists (sign_of_comparison (be_value (buf h a) ?= be_value (buf h b))),
    (sign_of_comparison (be_value (buf h b) ?= be_value (buf h c))),
    (sign_of_comparison (be_value (buf h a) ?= be_value (buf h c))).
  rewrite !ordering_equal_width by (done || congruence).
  rewrite CompareIPs_spec, decide_True, bytes_Compare_be_value by done.
  rewrite Z.compare_refl, (sign_of_comparison_opp (be_value (buf h a))).
  rewrite !sign_of_comparison_nonpos, !sign_of_comparison_neg.
  rewrite !sign_of_comparison_zero.
  split_and!; try done; try lia.
  - destruct (Z.compare_spec (be_value (buf h a)) (be_value (buf h b)));
      cbn; lia.
  - split; [by apply be_value_inj | by intros ->].
Qed.

Lemma CompareIPs_total_order_witness :
  ∃ ab bc ac,
    CompareIPs 1%positive 2%positive heap_three_addresses
    = Ok ((ab, None), heap_three_addresses)
    ∧ ordering heap_three_addresses 1%positive 2%positive = Some ab
    ∧ ordering heap_three_addresses 2%positive 3%positive = Some bc
    ∧ ordering heap_three_addresses 1%positive 3%positive = Some ac
    ∧ ab = sign_of_comparison
             (be_value (buf heap_three_addresses 1%positive)
              ?= be_value (buf heap_three_addresses 2%positive))
    ∧ (ab < 0 ↔ be_value (buf heap_three_addresses 1%positive)
                < be_value (buf heap_three_addresses 2%positive))
    ∧ (ab = 0 ↔ be_value (buf heap_three_addresses 1%positive)
                = be_value (buf heap_three_addresses 2%positive))
    ∧ (0 < ab ↔ be_value (buf heap_three_addresses 2%positive)
                < be_value (buf heap_three_addresses 1%positive))
    ∧ ordering heap_three_addresses 1%positive 1%positive = Some 0
    ∧ (ab = 0 ↔ buf heap_three_addresses 1%positive
                = buf heap_three_addresses 2%positive)
    ∧ ordering heap_three_addresses 2%positive 1%positive = Some (- ab)
    ∧ (ab ≤ 0 → bc ≤ 0 → ac ≤ 0)
    ∧ (ab < 0 → bc ≤ 0 → ac < 0)
    ∧ (ab ≤ 0 → bc < 0 → ac < 0).
Proof.
  apply (CompareIPs_total_order heap_three_addresses 1%positive 2%positive
           3%positive).
  - solve_wf_buf.
  - solve_wf_buf.
  - solve_wf_buf.
  - reflexivity.
  - reflexivity.
Defined.

(** C5. [CompareIPs] never panics and never changes the heap; it returns an
    error exactly when the two buffers differ in length, and in that case the
    integer it returns is the constant 0, whatever the bytes are. *)
Theorem CompareIPs_error_iff_width_mismatch (h : heap) (a b : loc) :
  ∃ r e,
    CompareIPs a b h = Ok ((r, e), h)
    ∧ (e ≠ None ↔ length (buf h a) ≠ length (buf h b))
    ∧ (e ≠ None →
       r = 0 ∧ e = Some (ErrDifferentSizes (buf h a) (buf h b))
       ∧ ordering h a b = None).
Proof.
  unfold ordering. rewrite CompareIPs_spec.
  destruct (decide (length (buf h a) = length (buf h b))) as [Heq | Hne].
  - eexists _, _. split_and!; [done | | done]. split; [done | by intros []].
  - eexists _, _. split_and!; [done | done | done].
Qed.

(** C10. On equal-width addresses the result of [CompareIPs] is one of
    -1, 0 and +1, with no error. *)
Theorem CompareIPs_result_in_minus_one_zero_one (h : heap) (a b : loc) :
  length (buf h a) = length (buf h b) →
  ∃ r, CompareIPs a b h = Ok ((r, None), h) ∧ (r = -1 ∨ r = 0 ∨ r = 1).
Proof.
  intros Hlen. rewrite CompareIPs_spec, decide_True by done.
  eexists. split; [done |]. apply bytes_Compare_range.
Qed.

Lemma CompareIPs_result_in_minus_one_zero_one_witness :
  ∃ r, CompareIPs 3%positive 1%positive heap_three_addresses
       = Ok ((r, None), heap_three_addresses)
       ∧ (r = -1 ∨ r = 0 ∨ r = 1).
Proof.
  apply (CompareIPs_result_in_minus_one_zero_one heap_three_addresses
           3%positive 1%positive).
  reflexivity.
Defined.

(** ** GetNetworkIPRange *)

Lemma insert_at_end_of_prefix (pre : list Z) (i c : nat) (v : Z) :
  length pre = i →
  <[i := v]> (pre ++ replicate (S c) 0) = (pre ++ [v]) ++ replicate c 0.
Proof.
  intros <-. rewrite insert_app_r_alt, Nat.sub_diag by lia.
  cbn. by rewrite <- app_assoc.
Qed.

Section network_range_loop.
Variables (n : IPNet) (f l : loc) (A Mk : list Z).
Hypothesis Hfl : f ≠ l.
Hypothesis HIPf : IP n ≠ f.
Hypothesis HIPl : IP n ≠ l.
Hypothesis HMaskf : Mask n ≠ f.
Hypothesis HMaskl : Mask n ≠ l.
Hypothesis Hwidth : length A = length Mk.

Lemma GetNetworkIPRange_body_spec (h : heap) (i : nat) (a m : Z)
    (bf bl : list Z) :
  h !! IP n = Some A → h !! Mask n = Some Mk →
  h !! f = Some bf → h !! l = Some bl →
  A !! i = Some a → Mk !! i = Some m →
  (i < length bf)%nat → (i < length bl)%nat →
  GetNetworkIPRange_body n f l i h
  = Ok (tt, <[l := <[i := Z.lor a (not8 m)]> bl]>
              (<[f := <[i := Z.land a m]> bf]> h)).
Proof using Hfl HIPf HIPl HMaskf HMaskl.
  intros HA HMk Hf Hl Ha Hm Hif Hil.
  unfold GetNetworkIPRange_body. unfold_M.
  rewrite (load_spec h (IP n) i a) by by rewrite (buf_lookup _ _ _ HA).
  rewrite (load_spec h (Mask n) i m) by by rewrite (buf_lookup _ _ _ HMk).
  rewrite store_spec; rewrite (buf_lookup _ _ _ Hf); [| done].
  rewrite (load_spec _ (IP n) i a).
  2:{ rewrite buf_insert_ne by done. by rewrite (buf_lookup _ _ _ HA). }
  rewrite (load_spec _ (Mask n) i m).
  2:{ rewrite buf_insert_ne by done. by rewrite (buf_lookup _ _ _ HMk). }
  rewrite store_spec; rewrite buf_insert_ne, (buf_lookup _ _ _ Hl); done.
Qed.

Lemma for_range_GetNetworkIPRange_body (c i : nat) (h : heap) :
  (i + c = length A)%nat →
  h !! IP n = Some A → h !! Mask n = Some Mk →
  h !! f = Some (take i (network_first A Mk) ++ replicate c 0) →
  h !! l = Some (take i (network_last A Mk) ++ replicate c 0) →
  for_range i c (GetNetworkIPRange_body n f l) h
  = Ok (tt, <[l := network_last A Mk]> (<[f := network_first A Mk]> h)).
Proof using Hfl HIPf HIPl HMaskf HMaskl Hwidth.
  revert i h. induction c as [| c IH]; intros i h Hic HA HMk Hf Hl.
  - cbn. unfold_M. rewrite !app_nil_r in *.
    rewrite !take_ge in Hf, Hl
      by (unfold network_first, network_last; rewrite length_zip_with; lia).
    rewrite (insert_id h f) by done. by rewrite insert_id.
  - destruct (lookup_lt_is_Some_2 A i) as [a Ha]; [lia |].
    destruct (lookup_lt_is_Some_2 Mk i) as [m Hm]; [lia |].
    assert (HFi : network_first A Mk !! i = Some (Z.land a m)).
    { unfold network_first. by rewrite lookup_zip_with, Ha, Hm. }
    assert (HLi : network_last A Mk !! i = Some (Z.lor a (not8 m))).
    { unfold network_last. by rewrite lookup_zip_with, Ha, Hm. }
    assert (HlenF : length (take i (network_first A Mk)) = i).
    { unfold network_first. rewrite length_take, length_zip_with. lia. }
    assert (HlenL : length (take i (network_last A Mk)) = i).
    { unfold network_last. rewrite length_take, length_zip_with. lia. }
    cbn [for_range]. unfold mbind, M_bind, bind.
    rewrite (GetNetworkIPRange_body_spec h i a m _ _ HA HMk Hf Hl Ha Hm)
      by (rewrite length_app, length_replicate; lia).
    rewrite !insert_at_end_of_prefix by done.
    rewrite <- (take_S_r _ _ _ HFi), <- (take_S_r _ _ _ HLi).
    rewrite IH.
    + f_equal. f_equal. apply map_eq. intros k.
      rewrite !lookup_insert. repeat case_decide; congruence.
    + lia.
    + by rewrite !lookup_insert_ne.
    + by rewrite !lookup_insert_ne.
    + by rewrite lookup_insert_ne, lookup_insert_eq.
    + by rewrite lookup_insert_eq.
Qed.
End network_range_loop.

(** The whole function: two buffers are allocated at unused addresses and
    filled; nothing else in the heap is written. *)
Lemma GetNetworkIPRange_spec (h : heap) (n : IPNet) (A Mk : list Z) :
  h !! IP n = Some A → h !! Mask n = Some Mk → length A = length Mk →
  ∃ f l,
    h !! f = None ∧ h !! l = None ∧ f ≠ l
    ∧ GetNetworkIPRange n h
      = Ok ((f, l), <[l := network_last A Mk]> (<[f := network_first A Mk]> h)).
Proof.
  intros HA HMk Hwidth. unfold GetNetworkIPRange. unfold_M.
  rewrite (buf_lookup _ _ _ HA).
  set (z := replicate (length A) 0).
  set (f := fresh (dom h)). set (h1 := <[f := z]> h).
  set (l := fresh (dom h1)). set (h2 := <[l := z]> h1).
  assert (Hf : h !! f = None) by apply fresh_unallocated.
  assert (Hl1 : h1 !! l = None) by apply fresh_unallocated.
  assert (Hfl : f ≠ l).
  { intros Heq. rewrite <- Heq in Hl1. subst h1.
    by rewrite lookup_insert_eq in Hl1. }
  assert (Hl : h !! l = None).
  { subst h1. by rewrite lookup_insert_ne in Hl1. }
  assert (HIPf : IP n ≠ f) by congruence.
  assert (HIPl : IP n ≠ l) by congruence.
  assert (HMaskf : Mask n ≠ f) by congruence.
  assert (HMaskl : Mask n ≠ l) by congruence.
  assert (HA2 : h2 !! IP n = Some A).
  { subst h2 h1. by rewrite !lookup_insert_ne. }
  assert (HMk2 : h2 !! Mask n = Some Mk).
  { subst h2 h1. by rewrite !lookup_insert_ne. }
  exists f, l. split_and!; [done .. |].
  rewrite (buf_lookup _ _ _ HA2).
  rewrite (for_range_GetNetworkIPRange_body n f l A Mk); try done.
  - do 2 f_equal. apply map_eq. intros k. subst h2 h1.
    rewrite !lookup_insert. repeat case_decide; congruence.
  - subst h2 h1. by rewrite lookup_insert_ne, lookup_insert_eq.
  - subst h2. by rewrite lookup_insert_eq.
Qed.

Lemma not8_byte (m : Z) : is_byte m → not8 m = 255 - m.
Proof.
  unfold is_byte, not8, wrap8. intros Hm.
  rewrite Z.lnot_eq_pred_opp.
  replace (- m - 1) with (255 - m + -1 * 256) by lia.
  rewrite Z.mod_add by lia. apply Z.mod_small. lia.
Qed.

(** [a AND m] only has bits that [a OR x] has too, whatever [x] is. *)
Lemma land_submask_of_lor (a m x : Z) :
  Z.land (Z.land a m) (Z.lor a x) = Z.land a m.
Proof.
  apply Z.bits_inj'. intros k _.
  rewrite !Z.land_spec, Z.lor_spec.
  by destruct (Z.testbit a k), (Z.testbit m k), (Z.testbit x k).
Qed.

Lemma land_le_lor (a m x : Z) : 0 ≤ a → 0 ≤ x → Z.land a m ≤ Z.lor a x.
Proof.
  intros Ha Hx. apply Z.ldiff_le.
  - apply Z.lor_nonneg. done.
  - apply Z.bits_inj'. intros k _.
    rewrite Z.ldiff_spec, Z.land_spec, Z.lor_spec, Z.bits_0.
    by destruct (Z.testbit a k), (Z.testbit m k), (Z.testbit x k).
Qed.

Lemma lor_byte (a x : Z) : is_byte a → is_byte x → Z.lor a x < 256.
Proof.
  unfold is_byte. intros Ha Hx.
  rewrite <- (Z.mod_small a 256), <- (Z.mod_small x 256) by lia.
  change 256 with (2 ^ 8).
  rewrite <- !Z.land_ones, <- Z.land_lor_distr_l, Z.land_ones by lia.
  apply Z.mod_pos_bound. lia.
Qed.

(** C6. For an address and a mask of equal width, [GetNetworkIPRange]
    returns two buffers of that width with [first[i] = address[i] AND mask[i]]
    and [last[i] = address[i] OR (NOT mask[i])] at every position.  Both
    buffers sit at addresses that were unused before the call and differ from
    each other, and every buffer that existed before the call, the address and
    the mask among them, has the contents it had. *)
Theorem GetNetworkIPRange_bytewise (h : heap) (n : IPNet) (A Mk : list Z) :
  h !! IP n = Some A → h !! Mask n = Some Mk → length A = length Mk →
  ∃ f l h',
    GetNetworkIPRange n h = Ok ((f, l), h')
    ∧ h !! f = None ∧ h !! l = None ∧ f ≠ l
    ∧ (∀ k, is_Some (h !! k) → h' !! k = h !! k)
    ∧ h' !! IP n = Some A ∧ h' !! Mask n = Some Mk
    ∧ length (buf h' f) = length A ∧ length (buf h' l) = length A
    ∧ (∀ i a m, A !! i = Some a → Mk !! i = Some m →
         buf h' f !! i = Some (Z.land a m)
         ∧ buf h' l !! i = Some (Z.lor a (not8 m))).
Proof.
  intros HA HMk Hwidth.
  destruct (GetNetworkIPRange_spec h n A Mk HA HMk Hwidth)
    as (f & l & Hf & Hl & Hfl & Hrun).
  assert (Hframe : ∀ k, is_Some (h !! k) →
            <[l := network_last A Mk]> (<[f := network_first A Mk]> h) !! k
            = h !! k).
  { intros k [bs Hk]. rewrite !lookup_insert_ne; [done | congruence ..]. }
  eexists f, l, _. split; [exact Hrun |].
  rewrite buf_insert_eq, buf_insert_ne, buf_insert_eq by done.
  split_and!; try done.
  - rewrite Hframe, HA; eauto.
  - rewrite Hframe, HMk; eauto.
  - unfold network_first. rewrite length_zip_with. lia.
  - unfold network_last. rewrite length_zip_with. lia.
  - intros i a m Ha Hm. unfold network_first, network_last.
    by rewrite !lookup_zip_with, Ha, Hm.
Qed.

Lemma GetNetworkIPRange_bytewise_witness :
  ∃ f l h',
    GetNetworkIPRange network_28 heap_network_28 = Ok ((f, l), h')
    ∧ heap_network_28 !! f = None ∧ heap_network_28 !! l = None ∧ f ≠ l
    ∧ (∀ k, is_Some (heap_network_28 !! k) → h' !! k = heap_network_28 !! k)
    ∧ h' !! IP network_28 = Some [192; 168; 216; 192]
    ∧ h' !! Mask network_28 = Some [255; 255; 255; 240]
    ∧ length (buf h' f) = 4%nat ∧ length (buf h' l) = 4%nat
    ∧ (∀ i a m, ([192; 168; 216; 192] : list Z) !! i = Some a →
         ([255; 255; 255; 240] : list Z) !! i = Some m →
         buf h' f !! i = Some (Z.land a m)
         ∧ buf h' l !! i = Some (Z.lor a (not8 m))).
Proof.
  apply (GetNetworkIPRange_bytewise heap_network_28 network_28
           [192; 168; 216; 192] [255; 255; 255; 240]);
    reflexivity.
Defined.

(** C9. For an address and a mask of equal width, whatever the bytes of
    the mask are, every byte of the first address returned by
    [GetNetworkIPRange] is a bitwise submask of, and hence at most, the byte of
    the last address at the same position. *)
Theorem GetNetworkIPRange_first_le_last (h : heap) (n : IPNet)
    (A Mk : list Z) :
  h !! IP n = Some A → h !! Mask n = Some Mk → length A = length Mk →
  wf_bytes A → wf_bytes Mk →
  ∃ f l h',
    GetNetworkIPRange n h = Ok ((f, l), h')
    ∧ length (buf h' f) = length A ∧ length (buf h' l) = length A
    ∧ (∀ i x y, buf h' f !! i = Some x → buf h' l !! i = Some y →
         Z.land x y = x ∧ 0 ≤ x ≤ y ∧ y < 256).
Proof.
  intros HA HMk Hwidth HwfA HwfM.
  destruct (GetNetworkIPRange_spec h n A Mk HA HMk Hwidth)
    as (f & l & Hf & Hl & Hfl & Hrun).
  eexists f, l, _. split; [exact Hrun |].
  rewrite buf_insert_eq, buf_insert_ne, buf_insert_eq by done.
  unfold network_first, network_last. rewrite !length_zip_with.
  split_and!; [lia | lia |].
  intros i x y Hx Hy.
  apply lookup_zip_with_Some in Hx as (a & m & -> & Ha & Hm).
  apply lookup_zip_with_Some in Hy as (a' & m' & -> & Ha' & Hm').
  assert (a' = a) as -> by congruence. assert (m' = m) as -> by congruence.
  assert (Hba : is_byte a) by exact (Forall_lookup_1 _ _ _ _ HwfA Ha).
  assert (Hbm : is_byte m) by exact (Forall_lookup_1 _ _ _ _ HwfM Hm).
  pose proof (wrap8_is_byte (Z.lnot m)) as Hnot. fold (not8 m) in Hnot.
  unfold is_byte in *.
  split_and!.
  - apply land_submask_of_lor.
  - apply Z.land_nonneg. lia.
  - apply land_le_lor; lia.
  - apply lor_byte; done.
Qed.

Lemma GetNetworkIPRange_first_le_last_witness :
  ∃ f l h',
    GetNetworkIPRange network_28 heap_network_28 = Ok ((f, l), h')
    ∧ length (buf h' f) = 4%nat ∧ length (buf h' l) = 4%nat
    ∧ (∀ i x y, buf h' f !! i = Some x → buf h' l !! i = Some y →
         Z.land x y = x ∧ 0 ≤ x ≤ y ∧ y < 256).
Proof.
  apply (GetNetworkIPRange_first_le_last heap_network_28 network_28
           [192; 168; 216; 192] [255; 255; 255; 240]);
    try reflexivity; solve_wf_bytes.
Defined.

(** ** The range iterator *)

Lemma GetIPRangeIterator_spec (h : heap) (f l : loc) :
  GetIPRangeIterator f l h
  = Ok ({| first := f; last := l; next := fresh (dom h) |},
        <[fresh (dom h) := buf h f]> h).
Proof.
  unfold GetIPRangeIterator. unfold mbind, M_bind, bind.
  by rewrite CopyIP_spec.
Qed.

Lemma iter_Next_spec (h : heap) (iter : ipRangeIterator) (c L : list Z) :
  h !! next iter = Some c → h !! last iter = Some L →
  iter_Next iter h
  = Ok ((fresh (dom h), advances c L),
        if advances c L
        then <[next iter := (Next_bytes c).1]> (<[fresh (dom h) := c]> h)
        else <[fresh (dom h) := c]> h).
Proof.
  intros Hc HL. unfold iter_Next. unfold mbind, M_bind, bind.
  rewrite CopyIP_spec, (buf_lookup _ _ _ Hc).
  set (l := fresh (dom h)).
  assert (Hln : l ≠ next iter) by (apply fresh_ne_allocated; eauto).
  assert (Hll : l ≠ last iter) by (apply fresh_ne_allocated; eauto).
  rewrite CompareIPs_spec, !buf_insert_ne by done.
  rewrite (buf_lookup _ _ _ Hc), (buf_lookup _ _ _ HL).
  unfold advances.
  destruct (decide (length c = length L)) as [Heq | Hne].
  - rewrite (bool_decide_eq_true_2 (length c = length L)) by done. cbn.
    destruct (bytes_Compare c L <=? 0); [| done].
    rewrite (Next_spec _ _ c); [done |]. by rewrite lookup_insert_ne.
  - by rewrite (bool_decide_eq_false_2 (length c = length L)).
Qed.

Lemma iter_Next_value_spec (h : heap) (iter : ipRangeIterator)
    (c L : list Z) :
  h !! next iter = Some c → h !! last iter = Some L →
  iter_Next_value iter h
  = Ok ((c, advances c L),
        if advances c L
        then <[next iter := (Next_bytes c).1]> (<[fresh (dom h) := c]> h)
        else <[fresh (dom h) := c]> h).
Proof.
  intros Hc HL. unfold iter_Next_value. unfold mbind, M_bind, bind.
  cbn [IPRangeIterator_Next ipRangeIterator_IPRangeIterator].
  rewrite (iter_Next_spec h iter c L) by done. unfold read, mret, M_ret, ret.
  assert (Hln : fresh (dom h) ≠ next iter) by (apply fresh_ne_allocated; eauto).
  destruct (advances c L).
  - by rewrite buf_insert_ne, buf_insert_eq.
  - by rewrite buf_insert_eq.
Qed.

Lemma iter_collect_S (k : nat) (iter : ipRangeIterator) (h : heap) :
  iter_collect (S k) iter h
  = match iter_Next_value iter h with
    | Ok (o, h1) =>
        match iter_collect k iter h1 with
        | Ok (rest, h2) => Ok (o :: rest, h2)
        | Panic => Panic
        end
    | Panic => Panic
    end.
Proof.
  cbn [iter_collect]. unfold mbind, M_bind, bind.
  destruct (iter_Next_value iter h) as [[o h1] |]; [| done].
  by destruct (iter_collect k iter h1) as [[rest h2] |].
Qed.

(** A retrieval that leaves the cursor where it is changes no existing
    buffer, and so can be repeated for ever with the same outcome. *)
Lemma iter_collect_stationary (k : nat) (h : heap) (iter : ipRangeIterator)
    (c L : list Z) :
  h !! next iter = Some c → h !! last iter = Some L →
  step_cursor c L = c →
  ∃ h', iter_collect k iter h = Ok (replicate k (c, advances c L), h')
        ∧ (∀ l, is_Some (h !! l) → h' !! l = h !! l).
Proof.
  revert h. induction k as [| k IH]; intros h Hc HL Hstay.
  - exists h. done.
  - cbn [iter_collect]. unfold mbind, M_bind, bind.
    rewrite (iter_Next_value_spec h iter c L) by done.
    set (l := fresh (dom h)).
    assert (Hln : l ≠ next iter) by (apply fresh_ne_allocated; eauto).
    assert (Hll : l ≠ last iter) by (apply fresh_ne_allocated; eauto).
    assert (Hh1 : (if advances c L
                   then <[next iter := (Next_bytes c).1]> (<[l := c]> h)
                   else <[l := c]> h) = <[l := c]> h).
    { unfold step_cursor in Hstay. destruct (advances c L); [| done].
      rewrite Hstay. apply insert_id. by rewrite lookup_insert_ne. }
    rewrite Hh1.
    destruct (IH (<[l := c]> h)) as (h' & -> & Hframe);
      [by rewrite lookup_insert_ne .. | done |].
    exists h'. split; [done |].
    intros l' Hl'. rewrite Hframe.
    + apply lookup_insert_ne. by apply fresh_ne_allocated.
    + rewrite lookup_insert_ne; [done |]. by apply fresh_ne_allocated.
Qed.

Lemma bytes_Compare_refl (a : list Z) : bytes_Compare a a = 0.
Proof.
  induction a as [| x a IH]; [done |].
  cbn. by rewrite Z.ltb_irrefl.
Qed.

Lemma cursor_exceeds_last_advances (h : heap) (iter : ipRangeIterator) :
  cursor_exceeds_last h iter ↔
  length (buf h (next iter)) = length (buf h (last iter))
  ∧ 0 < bytes_Compare (buf h (next iter)) (buf h (last iter)).
Proof.
  unfold cursor_exceeds_last, ordering. rewrite CompareIPs_spec.
  destruct (decide (length (buf h (next iter)) = length (buf h (last iter))))
    as [Heq | Hne].
  - split; [by intros (r & [= <-] & Hr) | intros [_ Hr]; eauto].
  - split; [by intros (r & [=] & _) | by intros [? _]].
Qed.

Lemma exceeds_not_advances (c L : list Z) :
  length c = length L → 0 < bytes_Compare c L → advances c L = false.
Proof.
  intros Hlen Hr. unfold advances. apply andb_false_iff. right.
  apply Z.leb_gt. done.
Qed.

(** C7. Once the cursor compares greater than the upper bound, any number
    of further retrievals all return the cursor's value with ok = false, and
    no buffer that existed before them is changed (each call only allocates
    the copy it returns), so the cursor still exceeds the bound afterwards.
    In particular an iterator built with first > last returns (first, false)
    from its first retrieval on. *)
Theorem exhaustion_is_terminal (k : nat) :
  (∀ (h : heap) (iter : ipRangeIterator) (c : list Z),
     h !! next iter = Some c → is_Some (h !! last iter) →
     cursor_exceeds_last h iter →
     ∃ h', iter_collect k iter h = Ok (replicate k (c, false), h')
           ∧ (∀ l, is_Some (h !! l) → h' !! l = h !! l)
           ∧ cursor_exceeds_last h' iter)
  ∧ (∀ (h : heap) (f l : loc) (A : list Z),
       h !! f = Some A → is_Some (h !! l) →
       (∃ r, ordering h f l = Some r ∧ 0 < r) →
       ∃ h', (iter ← GetIPRangeIterator f l; iter_collect k iter) h
             = Ok (replicate k (A, false), h')
             ∧ (∀ l', is_Some (h !! l') → h' !! l' = h !! l')).
Proof.
  assert (Hterminal : ∀ (h : heap) (iter : ipRangeIterator) (c : list Z),
     h !! next iter = Some c → is_Some (h !! last iter) →
     cursor_exceeds_last h iter →
     ∃ h', iter_collect k iter h = Ok (replicate k (c, false), h')
           ∧ (∀ l, is_Some (h !! l) → h' !! l = h !! l)
           ∧ cursor_exceeds_last h' iter).
  { intros h iter c Hc [L HL] Hex.
    pose proof Hex as [Hlen Hr]%cursor_exceeds_last_advances.
    rewrite (buf_lookup _ _ _ Hc), (buf_lookup _ _ _ HL) in Hlen, Hr.
    pose proof (exceeds_not_advances c L Hlen Hr) as Hadv.
    destruct (iter_collect_stationary k h iter c L Hc HL) as (h' & Hrun & Hframe).
    { unfold step_cursor. by rewrite Hadv. }
    rewrite Hadv in Hrun. exists h'. split_and!; [done | done |].
    apply cursor_exceeds_last_advances. unfold buf.
    rewrite !Hframe by eauto. rewrite Hc, HL. done. }
  split; [exact Hterminal |].
  intros h f l A Hf [L Hl] (r & Hord & Hr).
  unfold mbind, M_bind, bind.
  rewrite GetIPRangeIterator_spec, (buf_lookup _ _ _ Hf).
  set (n := fresh (dom h)).
  assert (Hnl : n ≠ l) by (apply fresh_ne_allocated; eauto).
  set (iter := {| first := f; last := l; next := n |}).
  destruct (Hterminal (<[n := A]> h) iter A) as (h' & Hrun & Hframe & _).
  - apply lookup_insert_eq.
  - cbn. rewrite lookup_insert_ne by done. eauto.
  - assert (Hex : cursor_exceeds_last h {| first := f; last := l; next := f |})
      by (exists r; done).
    apply cursor_exceeds_last_advances in Hex. cbn in Hex.
    apply cursor_exceeds_last_advances. cbn.
    rewrite buf_insert_eq, buf_insert_ne by done.
    by rewrite (buf_lookup _ _ _ Hf) in Hex.
  - exists h'. split; [done |]. intros l' Hl'. rewrite Hframe.
    + apply lookup_insert_ne. by apply fresh_ne_allocated.
    + rewrite lookup_insert_ne; [done |]. by apply fresh_ne_allocated.
Qed.

Lemma exhaustion_is_terminal_witness :
  ∃ h', (iter ← GetIPRangeIterator 1%positive 2%positive;
         iter_collect 3 iter) heap_empty_range
        = Ok (replicate 3 ([192; 168; 0; 20], false), h')
        ∧ (∀ l', is_Some (heap_empty_range !! l') →
                 h' !! l' = heap_empty_range !! l').
Proof.
  apply (proj2 (exhaustion_is_terminal 3) heap_empty_range 1%positive
           2%positive [192; 168; 0; 20]).
  - reflexivity.
  - exists [192; 168; 0; 10]. reflexivity.
  - exists 1. split; [reflexivity | lia].
Defined.

(** ** The iterator on ranges that contain no maximum *)

Lemma be_bytes_be_value (bs : list Z) :
  wf_bytes bs → be_bytes (length bs) (be_value bs) = bs.
Proof.
  induction bs as [| b bs IH] using rev_ind; intros Hwf; [done |].
  apply Forall_app in Hwf as [Hbs Hb]. rewrite Forall_singleton in Hb.
  unfold is_byte in Hb.
  rewrite length_app, Nat.add_1_r, be_value_snoc. cbn [be_bytes].
  rewrite Z.div_add_l, Z.div_small, Z.add_0_r by lia.
  rewrite Z.add_comm, Z.mod_add, Z.mod_small by lia.
  by rewrite IH.
Qed.

Lemma be_bytes_be_value_width (n : nat) (bs : list Z) :
  wf_bytes bs → length bs = n → be_bytes n (be_value bs) = bs.
Proof. intros Hwf <-. by apply be_bytes_be_value. Qed.

Lemma iter_collect_refines (k : nat) (h : heap) (iter : ipRangeIterator)
    (c L : list Z) :
  h !! next iter = Some c → h !! last iter = Some L →
  next iter ≠ last iter →
  ∃ h', iter_collect k iter h = Ok (collect_bytes k c L, h')
        ∧ h' !! next iter = Some (cursor_after k c L)
        ∧ (∀ l, is_Some (h !! l) → l ≠ next iter → h' !! l = h !! l).
Proof.
  revert h c. induction k as [| k IH]; intros h c Hc HL Hne.
  - exists h. done.
  - rewrite iter_collect_S, (iter_Next_value_spec h iter c L) by done.
    set (l := fresh (dom h)).
    assert (Hln : l ≠ next iter) by (apply fresh_ne_allocated; eauto).
    assert (Hll : l ≠ last iter) by (apply fresh_ne_allocated; eauto).
    set (h1 := if advances c L
               then <[next iter := (Next_bytes c).1]> (<[l := c]> h)
               else <[l := c]> h).
    assert (Hc1 : h1 !! next iter = Some (step_cursor c L)).
    { subst h1. unfold step_cursor. destruct (advances c L).
      - apply lookup_insert_eq.
      - by rewrite lookup_insert_ne. }
    assert (Hframe1 : ∀ l', is_Some (h !! l') → l' ≠ next iter →
                            h1 !! l' = h !! l').
    { intros l' Hl' Hne'. subst h1.
      assert (l ≠ l') by (by apply fresh_ne_allocated).
      destruct (advances c L); by rewrite !lookup_insert_ne. }
    destruct (IH h1 (step_cursor c L)) as (h' & -> & Hc' & Hframe);
      [done | by rewrite Hframe1 | done |].
    exists h'. split_and!; [done | |].
    + rewrite Hc'. unfold cursor_after. by rewrite Nat.iter_succ_r.
    + intros l' Hl' Hne'. rewrite Hframe; [by apply Hframe1 | | done].
      by rewrite Hframe1.
Qed.

Lemma advances_iff (c L : list Z) :
  wf_bytes c → wf_bytes L → length c = length L →
  advances c L = true ↔ be_value c ≤ be_value L.
Proof.
  intros Hc HL Hlen. unfold advances.
  rewrite bool_decide_eq_true_2 by done. cbn.
  rewrite Z.leb_le, bytes_Compare_be_value by done.
  apply sign_of_comparison_nonpos.
Qed.

Lemma known_max_elem_of (x : list Z) :
  known_max x = true ↔ x ∈ [MaxIPv4; MaxIPv4In6; MaxIPv6].
Proof.
  rewrite known_max_iff, !elem_of_cons, elem_of_nil. tauto.
Qed.

Lemma collect_bytes_range (d : nat) (c L : list Z) :
  wf_bytes c → wf_bytes L → length c = length L →
  be_value L = be_value c + Z.of_nat d →
  free_of_maxima c L →
  collect_bytes (d + 2) c L
  = ((λ v, (be_bytes (length L) v, true))
       <$> seqZ (be_value c) (Z.of_nat d + 1))
    ++ [(be_bytes (length L) (be_value L + 1), false)].
Proof.
  revert c. induction d as [| d IH]; intros c Hc HL Hlen Hd [Hff Hfree].
  all: pose proof (be_value_bounds L HL) as HbL.
  all: assert (HLmax : be_value L ≠ capacity (length L) - 1)
         by (by intros ?%be_value_max_iff).
  all: assert (Hadv : advances c L = true) by (apply advances_iff; [done .. | lia]).
  all: assert (Hnomax : known_max c = false).
  1,3: apply not_true_iff_false; intros Hm%known_max_elem_of;
       apply (Hfree c Hm Hlen); lia.
  all: assert (Hcff : c ≠ replicate (length c) 255).
  1,3: intros Hcmax%be_value_max_iff; [rewrite Hlen in Hcmax; lia | done].
  all: destruct (incr_loop_full c Hc) as (Hl' & Hwf' & _).
  all: pose proof (incr_loop_no_wrap c Hc Hcff) as Hv'.
  all: assert (Hstep : step_cursor c L = incr_loop (length c) c)
         by (unfold step_cursor, Next_bytes; by rewrite Hadv, Hnomax).
  all: set (c' := incr_loop (length c) c) in *.
  - cbn [Nat.add collect_bytes]. rewrite Hadv, Hstep.
    assert (advances c' L = false) as ->.
    { apply not_true_iff_false. rewrite advances_iff by (done || lia). lia. }
    rewrite seqZ_cons, seqZ_nil by lia. cbn [fmap list_fmap app].
    replace (be_value L + 1) with (be_value c') by lia.
    rewrite !be_bytes_be_value_width by (done || congruence). done.
  - cbn [Nat.add collect_bytes]. rewrite Hadv, Hstep.
    change (S (d + 2)) with (S d + 2)%nat in *.
    rewrite (IH c'); [| done | done | lia | lia |].
    + replace (Z.of_nat (S d) + 1) with (Z.succ (Z.of_nat d + 1)) by lia.
      rewrite (seqZ_cons (be_value c)) by lia. cbn [fmap list_fmap].
      rewrite (be_bytes_be_value_width _ c) by done.
      rewrite Hv'. replace (Z.pred (Z.succ (Z.of_nat d + 1)))
        with (Z.of_nat d + 1) by lia.
      replace (Z.succ (be_value c)) with (be_value c + 1) by lia. done.
    + split; [done |]. intros m Hm Hlm Hbetween.
      apply (Hfree m Hm Hlm). lia.
Qed.

(** X18. On a range [A .. B] of equal-width addresses that contains no known
    maximum and does not end at all-0xFF, the iterator yields every address
    from [A] to [B], in ascending order, once each and with ok = true; the
    next retrieval returns ok = false.  Nothing that existed before is
    written. *)
Lemma iterator_yields_range (h : heap) (f l : loc) (A B : list Z) :
  h !! f = Some A → h !! l = Some B →
  wf_bytes A → wf_bytes B → length A = length B →
  be_value A ≤ be_value B → free_of_maxima A B →
  ∃ h', (iter ← GetIPRangeIterator f l;
         iter_collect (Z.to_nat (be_value B - be_value A) + 2) iter) h
        = Ok (((λ v, (be_bytes (length B) v, true))
                 <$> seqZ (be_value A) (be_value B - be_value A + 1))
              ++ [(be_bytes (length B) (be_value B + 1), false)], h')
        ∧ (∀ k, is_Some (h !! k) → h' !! k = h !! k).
Proof.
  intros Hf Hl HA HB Hlen Hle Hfree.
  unfold mbind, M_bind, bind.
  rewrite GetIPRangeIterator_spec, (buf_lookup _ _ _ Hf).
  set (n := fresh (dom h)).
  assert (Hnl : n ≠ l) by (apply fresh_ne_allocated; eauto).
  set (iter := {| first := f; last := l; next := n |}).
  destruct (iter_collect_refines (Z.to_nat (be_value B - be_value A) + 2)
              (<[n := A]> h) iter A B) as (h' & -> & _ & Hframe).
  - apply lookup_insert_eq.
  - cbn. by rewrite lookup_insert_ne.
  - done.
  - exists h'. split.
    + rewrite collect_bytes_range; [| done | done | done | lia | done].
      by rewrite Z2Nat.id by lia.
    + intros k Hk.
      assert (n ≠ k) by (by apply fresh_ne_allocated).
      rewrite Hframe; [by apply lookup_insert_ne | | done].
      by rewrite lookup_insert_ne.
Qed.

(** ** Emitted addresses stay within the bounds *)

Lemma Next_bytes_monotone (c : list Z) :
  wf_bytes c → length c = IPv4Size ∨ length c = IPv6Size →
  wf_bytes (Next_bytes c).1
  ∧ length (Next_bytes c).1 = length c
  ∧ be_value c ≤ be_value (Next_bytes c).1.
Proof.
  intros Hc Hw. unfold Next_bytes.
  destruct (known_max c) eqn:Hmax; cbn; [split_and!; done || lia |].
  destruct (incr_loop_full c Hc) as (Hl & Hwf & _).
  rewrite incr_loop_no_wrap by (done || by apply not_known_max_not_all_ff).
  split_and!; done || lia.
Qed.

(** In the two recognised widths the cursor never wraps, so whatever is
    emitted with ok = true reads between the two bounds. *)
Lemma collect_bytes_within_bounds (k : nat) (A c L : list Z) :
  wf_bytes c → wf_bytes L → length c = length L →
  length L = IPv4Size ∨ length L = IPv6Size →
  be_value A ≤ be_value c →
  ∀ v, (v, true) ∈ collect_bytes k c L →
       be_value A ≤ be_value v ≤ be_value L.
Proof.
  revert c. induction k as [| k IH]; intros c Hc HL Hlen Hw Hle v Hv.
  - by apply elem_of_nil in Hv.
  - cbn [collect_bytes] in Hv. apply elem_of_cons in Hv as [[= -> Hadv] | Hv].
    + symmetry in Hadv. apply advances_iff in Hadv; [lia | done ..].
    + destruct (Next_bytes_monotone c Hc) as (Hwf' & Hl' & Hmono);
        [by rewrite Hlen |].
      apply (IH (step_cursor c L)); try done; unfold step_cursor;
        destruct (advances c L); done || lia || congruence.
Qed.

(** X19. For bounds of width 4 or 16, every address that an iterator
    returns with ok = true, over any number of retrievals, reads between the
    first and the last address, both included. *)
Lemma iterator_emits_within_bounds (k : nat) (h : heap) (f l : loc)
    (A B : list Z) :
  h !! f = Some A → h !! l = Some B →
  wf_bytes A → wf_bytes B → length A = length B →
  length B = IPv4Size ∨ length B = IPv6Size →
  ∃ outs h',
    (iter ← GetIPRangeIterator f l; iter_collect k iter) h = Ok (outs, h')
    ∧ ∀ v, (v, true) ∈ outs → be_value A ≤ be_value v ≤ be_value B.
Proof.
  intros Hf Hl HA HB Hlen Hw.
  unfold mbind, M_bind, bind.
  rewrite GetIPRangeIterator_spec, (buf_lookup _ _ _ Hf).
  set (n := fresh (dom h)).
  assert (Hnl : n ≠ l) by (apply fresh_ne_allocated; eauto).
  destruct (iter_collect_refines k (<[n := A]> h)
              {| first := f; last := l; next := n |} A B)
    as (h' & -> & _ & _).
  - apply lookup_insert_eq.
  - cbn. by rewrite lookup_insert_ne.
  - done.
  - eexists _, h'. split; [done |].
    by apply collect_bytes_within_bounds.
Qed.

(** ** Where the iterator departs from its contract *)

Lemma range_over_empty_heap (A B : list Z) :
  range_over A B ∅
  = Ok ({| first := 1%positive; last := 2%positive; next := 3%positive |},
        {[ 1%positive := A; 2%positive := B; 3%positive := A ]}).
Proof.
  unfold range_over, alloc. unfold mbind, M_bind, bind.
  rewrite GetIPRangeIterator_spec. vm_compute. reflexivity.
Qed.

(** C2. Evaluation on the range 255.255.255.254 .. 255.255.255.255: the
    iterator yields the first address, then the last one, and then keeps
    yielding the last one with ok = true on every later call, because [Next]
    refuses to move past the maximum and its result is ignored.  The call
    after the one that yielded the upper bound therefore does not return
    ok = false. *)
Theorem iterator_never_exhausts_at_MaxIPv4 (k : nat) :
  value_of ((iter ← range_over [255; 255; 255; 254] MaxIPv4;
             iter_collect (S (S k)) iter) ∅)
  = Some (([255; 255; 255; 254], true) :: replicate (S k) (MaxIPv4, true)).
Proof.
  unfold mbind, M_bind, bind at 1. rewrite range_over_empty_heap.
  rewrite iter_collect_S.
  rewrite (iter_Next_value_spec _ _ [255; 255; 255; 254] MaxIPv4)
    by reflexivity.
  change (advances [255; 255; 255; 254] MaxIPv4) with true. cbv iota.
  change (Next_bytes [255; 255; 255; 254]).1 with MaxIPv4.
  match goal with
  | |- context [iter_collect (S k) ?it ?h] =>
      destruct (iter_collect_stationary (S k) h it MaxIPv4 MaxIPv4)
        as (h' & Hrun & _)
  end.
  - apply lookup_insert_eq.
  - cbn [last]. rewrite lookup_insert_ne by done. vm_compute. reflexivity.
  - reflexivity.
  - rewrite Hrun. reflexivity.
Qed.

Lemma iterator_repeats_stationary_cursor (k : nat) (m : list Z) :
  step_cursor m m = m →
  value_of ((iter ← range_over m m; iter_collect k iter) ∅)
  = Some (replicate k (m, advances m m)).
Proof.
  intros Hstay. unfold mbind, M_bind, bind. rewrite range_over_empty_heap.
  match goal with
  | |- context [iter_collect k ?it ?h] =>
      destruct (iter_collect_stationary k h it m m) as (h' & Hrun & _)
  end.
  - reflexivity.
  - reflexivity.
  - done.
  - rewrite Hrun. reflexivity.
Qed.

(** C3. Evaluation on the one-address ranges whose two bounds are a known
    maximum (255.255.255.255 on 4 bytes, the all-0xFF address on 16 bytes,
    and the IPv4-mapped ::ffff:255.255.255.255): every retrieval, however
    many are made, returns that same address with ok = true, so the one
    position of the range is emitted more than once. *)
Theorem iterator_repeats_known_maximum (k : nat) :
  value_of ((iter ← range_over MaxIPv4 MaxIPv4; iter_collect k iter) ∅)
  = Some (replicate k (MaxIPv4, true))
  ∧ value_of ((iter ← range_over MaxIPv6 MaxIPv6; iter_collect k iter) ∅)
    = Some (replicate k (MaxIPv6, true))
  ∧ value_of ((iter ← range_over MaxIPv4In6 MaxIPv4In6;
               iter_collect k iter) ∅)
    = Some (replicate k (MaxIPv4In6, true)).
Proof.
  split_and!; by rewrite iterator_repeats_stationary_cursor.
Qed.

(** A 16-byte range that crosses the IPv4-mapped maximum stops moving
    there, well before its upper bound. *)
Example iterator_stuck_inside_v6_range :
  value_of ((iter ← range_over
                      [0; 0; 0; 0; 0; 0; 0; 0; 0; 0; 255; 255; 255; 255; 255; 254]
                      [0; 0; 0; 0; 0; 0; 0; 0; 0; 1; 0; 0; 0; 0; 0; 0];
             iter_collect 4 iter) ∅)
  = Some [([0; 0; 0; 0; 0; 0; 0; 0; 0; 0; 255; 255; 255; 255; 255; 254], true);
          (MaxIPv4In6, true); (MaxIPv4In6, true); (MaxIPv4In6, true)].
Proof. vm_compute. reflexivity. Qed.

(** With an unrecognised width the cursor wraps and the range starts again
    from zero. *)
Example iterator_wraps_on_two_bytes :
  value_of ((iter ← range_over [255; 254] [255; 255]; iter_collect 4 iter) ∅)
  = Some [([255; 254], true); ([255; 255], true);
          ([0; 0], true); ([0; 1], true)].
Proof. vm_compute. reflexivity. Qed.

(** * Further properties of the package *)

(** ** CopyIP *)

(** X1. [CopyIP] never panics.  It returns a slice at an address that was
    unused before the call, holding exactly the bytes of its argument (none
    for an empty or nil argument), and every buffer that existed before the
    call keeps its contents. *)
Theorem CopyIP_fresh_copy (h : heap) (ip : loc) :
  ∃ c h', CopyIP ip h = Ok (c, h')
          ∧ h !! c = None
          ∧ h' !! c = Some (buf h ip)
          ∧ (∀ k, is_Some (h !! k) → h' !! k = h !! k).
Proof.
  rewrite CopyIP_spec. eexists _, _. split_and!; [done | | |].
  - apply fresh_unallocated.
  - apply lookup_insert_eq.
  - intros k Hk. apply lookup_insert_ne. by apply fresh_ne_allocated.
Qed.

(** X2. A copy shares no storage with its original: advancing the copy
    with [Next] leaves the original's bytes as they were, and advancing the
    original leaves the copy's bytes as they were. *)
Theorem CopyIP_shares_no_storage (h : heap) (ip : loc) (bs : list Z) :
  h !! ip = Some bs →
  (∃ c ok h', (c ← CopyIP ip; ok ← Next c; mret (c, ok)) h = Ok ((c, ok), h')
              ∧ c ≠ ip ∧ h' !! ip = Some bs)
  ∧ (∃ c ok h', (c ← CopyIP ip; ok ← Next ip; mret (c, ok)) h = Ok ((c, ok), h')
                ∧ c ≠ ip ∧ h' !! c = Some bs).
Proof.
  intros Hip. unfold mbind, M_bind, bind, mret, M_ret, ret.
  rewrite CopyIP_spec, (buf_lookup _ _ _ Hip).
  set (c := fresh (dom h)).
  assert (Hc : c ≠ ip) by (apply fresh_ne_allocated; eauto).
  split.
  - rewrite (Next_spec c _ bs) by apply lookup_insert_eq.
    eexists _, _, _. split_and!; [done | done |].
    by rewrite !lookup_insert_ne.
  - rewrite (Next_spec ip _ bs) by by rewrite lookup_insert_ne.
    eexists _, _, _. split_and!; [done | done |].
    by rewrite lookup_insert_ne, lookup_insert_eq.
Qed.

Lemma CopyIP_shares_no_storage_witness :
  (∃ c ok h', (c ← CopyIP 1%positive; ok ← Next c; mret (c, ok))
                heap_192_168_0_255 = Ok ((c, ok), h')
              ∧ c ≠ 1%positive ∧ h' !! 1%positive = Some [192; 168; 0; 255])
  ∧ (∃ c ok h', (c ← CopyIP 1%positive; ok ← Next 1%positive; mret (c, ok))
                  heap_192_168_0_255 = Ok ((c, ok), h')
                ∧ c ≠ 1%positive ∧ h' !! c = Some [192; 168; 0; 255]).
Proof.
  apply (CopyIP_shares_no_storage heap_192_168_0_255 1%positive
           [192; 168; 0; 255]).
  reflexivity.
Defined.

(** X3. An address compares equal to its copy: [CompareIPs] on a slice and
    the result of [CopyIP] on it returns 0 with no error. *)
Theorem CompareIPs_copy_is_equal (h : heap) (ip : loc) :
  ∃ h', (c ← CopyIP ip; CompareIPs ip c) h = Ok ((0, None), h').
Proof.
  unfold mbind, M_bind, bind. rewrite CopyIP_spec, CompareIPs_spec.
  set (c := fresh (dom h)). rewrite buf_insert_eq.
  assert (Hsrc : buf (<[c := buf h ip]> h) ip = buf h ip).
  { destruct (decide (c = ip)) as [<- | Hne].
    - by rewrite buf_insert_eq.
    - by apply buf_insert_ne. }
  rewrite Hsrc, decide_True, bytes_Compare_refl by done. eauto.
Qed.

(** ** Next *)

Lemma incr_loop_length (n : nat) (bs : list Z) :
  length (incr_loop n bs) = length bs.
Proof.
  revert bs. induction n as [| i IH]; intros bs; [done |].
  cbn [incr_loop]. destruct (bs !! i) as [b |]; [| done]. cbn zeta.
  destruct (0 <? wrap8 (b + 1)); [| rewrite IH]; apply length_insert.
Qed.

Lemma be_value_app (a b : list Z) :
  be_value (a ++ b) = be_value a * capacity (length b) + be_value b.
Proof.
  unfold be_value at 1. rewrite foldl_app. apply be_value_foldl.
Qed.

(** X4. Whatever the buffer holds and whatever its width, [Next] does not
    panic, leaves the buffer with the width it had, keeps its bytes in
    range, and writes to no other buffer. *)
Theorem Next_keeps_width (h : heap) (ip : loc) (bs : list Z) :
  h !! ip = Some bs →
  ∃ ok bs' h',
    Next ip h = Ok (ok, h')
    ∧ h' !! ip = Some bs'
    ∧ length bs' = length bs
    ∧ (wf_bytes bs → wf_bytes bs')
    ∧ (∀ k, k ≠ ip → h' !! k = h !! k).
Proof.
  intros Hip. rewrite (Next_spec ip h bs Hip).
  eexists _, _, _. split_and!; [done | apply lookup_insert_eq | | |].
  - unfold Next_bytes. destruct (known_max bs); cbn; [done |].
    apply incr_loop_length.
  - intros Hwf. unfold Next_bytes. destruct (known_max bs); cbn; [done |].
    by destruct (incr_loop_full bs Hwf) as (_ & ? & _).
  - intros k Hk. by apply lookup_insert_ne.
Qed.

Lemma Next_keeps_width_witness :
  ∃ ok bs' h',
    Next 1%positive heap_ff_ff_ff = Ok (ok, h')
    ∧ h' !! 1%positive = Some bs'
    ∧ length bs' = length ([255; 255; 255] : list Z)
    ∧ (wf_bytes [255; 255; 255] → wf_bytes bs')
    ∧ (∀ k, k ≠ 1%positive → h' !! k = heap_ff_ff_ff !! k).
Proof.
  apply (Next_keeps_width heap_ff_ff_ff 1%positive [255; 255; 255]).
  reflexivity.
Defined.

Lemma capacity_ge_256 (n : nat) : n ≠ 0%nat → 256 ≤ capacity n.
Proof.
  destruct n as [| n]; [done |]. intros _. rewrite capacity_S.
  pose proof (capacity_pos n). lia.
Qed.

(** X5. [Next] returns false exactly when the buffer is one of the three
    package maxima, and then nothing is written.  When it returns true the
    buffer no longer holds what it held, except that on an empty buffer
    [Next] returns true and changes nothing. *)
Theorem Next_refuses_only_at_maxima (h : heap) (ip : loc) (bs : list Z) :
  h !! ip = Some bs → wf_bytes bs →
  ∃ ok h',
    Next ip h = Ok (ok, h')
    ∧ (ok = false ↔ bs = MaxIPv4 ∨ bs = MaxIPv4In6 ∨ bs = MaxIPv6)
    ∧ (ok = false → h' = h)
    ∧ (ok = true → bs ≠ [] → h' !! ip ≠ Some bs)
    ∧ (bs = [] → ok = true ∧ h' = h).
Proof.
  intros Hip Hwf. rewrite (Next_spec ip h bs Hip). unfold Next_bytes.
  eexists _, _. split; [done |].
  destruct (known_max bs) eqn:Hmax; cbn.
  - pose proof Hmax as Hmax'%known_max_iff.
    split_and!; [done | by rewrite insert_id | done |].
    intros ->. done.
  - pose proof Hmax as Hmax'%known_max_false_iff.
    split_and!.
    + split; [done | tauto].
    + done.
    + intros _ Hne. rewrite lookup_insert_eq. intros [= Heq].
      destruct (incr_loop_full bs Hwf) as (_ & _ & Hv). rewrite Heq in Hv.
      pose proof (be_value_bounds bs Hwf) as Hb.
      assert (Hcap : 256 ≤ capacity (length bs)).
      { apply capacity_ge_256. by destruct bs. }
      destruct (decide (be_value bs + 1 < capacity (length bs))) as [Hlt | Hge].
      * rewrite Z.mod_small in Hv; lia.
      * replace (be_value bs + 1) with (capacity (length bs)) in Hv by lia.
        rewrite Z.mod_same in Hv; lia.
    + intros ->. split; [done |]. cbn. by rewrite insert_id.
Qed.

Lemma Next_refuses_only_at_maxima_witness :
  ∃ ok h',
    Next 1%positive heap_192_168_0_255 = Ok (ok, h')
    ∧ (ok = false ↔ ([192; 168; 0; 255] : list Z) = MaxIPv4
                    ∨ [192; 168; 0; 255] = MaxIPv4In6
                    ∨ [192; 168; 0; 255] = MaxIPv6)
    ∧ (ok = false → h' = heap_192_168_0_255)
    ∧ (ok = true → ([192; 168; 0; 255] : list Z) ≠ [] →
       h' !! 1%positive ≠ Some [192; 168; 0; 255])
    ∧ (([192; 168; 0; 255] : list Z) = [] →
       ok = true ∧ h' = heap_192_168_0_255).
Proof.
  apply (Next_refuses_only_at_maxima heap_192_168_0_255 1%positive
           [192; 168; 0; 255]).
  - reflexivity.
  - solve_wf_bytes.
Defined.

(** X6. The carry stops at the first byte from the right that is not
    0xFF: a buffer that ends in [k] bytes 0xFF after a byte [b < 0xFF], and is
    not the IPv4-mapped maximum, gets that byte incremented and the [k] bytes
    behind it zeroed, while the bytes in front are left as they are. *)
Theorem Next_carry (h : heap) (ip : loc) (pre : list Z) (b : Z) (k : nat) :
  h !! ip = Some (pre ++ b :: replicate k 255) →
  wf_bytes pre → 0 ≤ b < 255 →
  pre ++ b :: replicate k 255 ≠ MaxIPv4In6 →
  Next ip h = Ok (true, <[ip := pre ++ (b + 1) :: replicate k 0]> h).
Proof.
  intros Hip Hpre Hb Hv4.
  set (bs := pre ++ b :: replicate k 255) in *.
  assert (Hwf : wf_bytes bs).
  { apply Forall_app. split; [done |]. apply Forall_cons. split.
    - unfold is_byte. lia.
    - apply wf_bytes_replicate_ff. }
  assert (Hnotff : bs ≠ replicate (length bs) 255).
  { intros Heq. assert (Hin : b ∈ bs).
    { subst bs. apply elem_of_app. right. apply elem_of_cons. by left. }
    rewrite Heq in Hin. apply elem_of_replicate in Hin as [-> _]. lia. }
  assert (Hmax : known_max bs = false).
  { apply known_max_false_iff. split_and!; [| done |].
    - intros Heq. apply Hnotff. by rewrite Heq.
    - intros Heq. apply Hnotff. by rewrite Heq. }
  rewrite (Next_spec ip h bs Hip). unfold Next_bytes. rewrite Hmax. cbn.
  do 3 f_equal.
  destruct (incr_loop_full bs Hwf) as (Hl & Hwf' & _).
  apply be_value_inj; [done | | |].
  - apply Forall_app. split; [done |]. apply Forall_cons. split.
    + unfold is_byte. lia.
    + apply Forall_replicate. unfold is_byte. lia.
  - rewrite Hl. subst bs. rewrite !length_app. cbn. by rewrite !length_replicate.
  - rewrite incr_loop_no_wrap by done. subst bs.
    rewrite !be_value_app, !be_value_cons.
    rewrite be_value_replicate_ff, be_value_replicate_0. cbn [length].
    rewrite !length_replicate. lia.
Qed.

Lemma Next_carry_witness :
  Next 1%positive heap_192_168_0_255
  = Ok (true, <[1%positive := [192; 168] ++ (0 + 1) :: replicate 1 0]>
                heap_192_168_0_255).
Proof.
  apply (Next_carry heap_192_168_0_255 1%positive [192; 168] 0 1).
  - reflexivity.
  - solve_wf_bytes.
  - lia.
  - discriminate.
Defined.

(** X7. [Next] moves to the successor in the order of [CompareIPs].  For a
    4-byte or 16-byte address that is not a known maximum, a copy taken
    before the call compares less than the address after the call, and every
    address of the same width that the copy compares less than compares
    greater than or equal to the address after the call. *)
Theorem Next_is_successor_for_CompareIPs (h : heap) (ip : loc)
    (bs : list Z) :
  h !! ip = Some bs → wf_bytes bs →
  length bs = IPv4Size ∨ length bs = IPv6Size →
  bs ≠ MaxIPv4 ∧ bs ≠ MaxIPv4In6 ∧ bs ≠ MaxIPv6 →
  ∃ c h',
    (c ← CopyIP ip; _ ← Next ip; mret c) h = Ok (c, h')
    ∧ ordering h' c ip = Some (-1)
    ∧ (∀ x, wf_bytes (buf h' x) → length (buf h' x) = length bs →
            ordering h' c x = Some (-1) →
            ∃ r, ordering h' ip x = Some r ∧ r ≤ 0).
Proof.
  intros Hip Hwf Hw Hmax%known_max_false_iff.
  unfold mbind, M_bind, bind, mret, M_ret, ret.
  rewrite CopyIP_spec, (buf_lookup _ _ _ Hip).
  set (c := fresh (dom h)).
  assert (Hc : c ≠ ip) by (apply fresh_ne_allocated; eauto).
  rewrite (Next_spec ip _ bs) by by rewrite lookup_insert_ne.
  unfold Next_bytes. rewrite Hmax. cbn.
  destruct (incr_loop_full bs Hwf) as (Hl & Hwf' & _).
  pose proof (incr_loop_no_wrap bs Hwf
                (not_known_max_not_all_ff bs Hw Hmax)) as Hv.
  set (bs' := incr_loop (length bs) bs) in *.
  set (h' := <[ip := bs']> (<[c := bs]> h)).
  assert (Hbc : buf h' c = bs).
  { subst h'. by rewrite buf_insert_ne, buf_insert_eq. }
  assert (Hbip : buf h' ip = bs') by (subst h'; apply buf_insert_eq).
  exists c, h'. split_and!; [done | |].
  - rewrite ordering_equal_width; rewrite ?Hbc, ?Hbip; [| done ..].
    rewrite Hv. by assert (be_value bs < be_value bs + 1) as ->%Z.compare_lt_iff
      by lia.
  - intros x Hx Hlx. rewrite !ordering_equal_width;
      rewrite ?Hbc, ?Hbip; [| done || congruence ..].
    rewrite ?Hbc, ?Hbip. intros [= Hlt]. eexists. split; [done |].
    apply sign_of_comparison_nonpos.
    pose proof (proj1 (sign_of_comparison_neg (be_value bs)
                         (be_value (buf h' x)))) as Hneg.
    rewrite Hlt in Hneg. lia.
Qed.

Lemma Next_is_successor_for_CompareIPs_witness :
  ∃ c h',
    (c ← CopyIP 1%positive; _ ← Next 1%positive; mret c) heap_192_168_0_255
    = Ok (c, h')
    ∧ ordering h' c 1%positive = Some (-1)
    ∧ (∀ x, wf_bytes (buf h' x) →
            length (buf h' x) = length ([192; 168; 0; 255] : list Z) →
            ordering h' c x = Some (-1) →
            ∃ r, ordering h' 1%positive x = Some r ∧ r ≤ 0).
Proof.
  apply (Next_is_successor_for_CompareIPs heap_192_168_0_255 1%positive
           [192; 168; 0; 255]).
  - reflexivity.
  - solve_wf_bytes.
  - left. reflexivity.
  - split_and!; discriminate.
Defined.

(** ** GetNetworkIPRange with a mask of another width *)

Section network_range_any_mask.
Variables (n : IPNet) (f l : loc) (A Mk : list Z).
Hypothesis Hfl : f ≠ l.
Hypothesis HIPf : IP n ≠ f.
Hypothesis HIPl : IP n ≠ l.
Hypothesis HMaskf : Mask n ≠ f.
Hypothesis HMaskl : Mask n ≠ l.

Lemma for_range_body_long_mask (c i : nat) (h : heap) :
  (length A ≤ length Mk)%nat → (i + c = length A)%nat →
  h !! IP n = Some A → h !! Mask n = Some Mk →
  h !! f = Some (take i (network_first A Mk) ++ replicate c 0) →
  h !! l = Some (take i (network_last A Mk) ++ replicate c 0) →
  for_range i c (GetNetworkIPRange_body n f l) h
  = Ok (tt, <[l := network_last A Mk]> (<[f := network_first A Mk]> h)).
Proof using Hfl HIPf HIPl HMaskf HMaskl.
  intros Hlong. revert i h.
  induction c as [| c IH]; intros i h Hic HA HMk Hf Hl.
  - cbn. unfold_M. rewrite !app_nil_r in *.
    rewrite !take_ge in Hf, Hl
      by (unfold network_first, network_last; rewrite length_zip_with; lia).
    rewrite (insert_id h f) by done. by rewrite insert_id.
  - destruct (lookup_lt_is_Some_2 A i) as [a Ha]; [lia |].
    destruct (lookup_lt_is_Some_2 Mk i) as [m Hm]; [lia |].
    assert (HFi : network_first A Mk !! i = Some (Z.land a m)).
    { unfold network_first. by rewrite lookup_zip_with, Ha, Hm. }
    assert (HLi : network_last A Mk !! i = Some (Z.lor a (not8 m))).
    { unfold network_last. by rewrite lookup_zip_with, Ha, Hm. }
    assert (HlenF : length (take i (network_first A Mk)) = i).
    { unfold network_first. rewrite length_take, length_zip_with. lia. }
    assert (HlenL : length (take i (network_last A Mk)) = i).
    { unfold network_last. rewrite length_take, length_zip_with. lia. }
    cbn [for_range]. unfold mbind, M_bind, bind.
    rewrite (GetNetworkIPRange_body_spec n f l A Mk Hfl HIPf HIPl HMaskf
               HMaskl h i a m _ _ HA HMk Hf Hl Ha Hm)
      by (rewrite length_app, length_replicate; lia).
    rewrite !insert_at_end_of_prefix by done.
    rewrite <- (take_S_r _ _ _ HFi), <- (take_S_r _ _ _ HLi).
    rewrite IH.
    + f_equal. f_equal. apply map_eq. intros k.
      rewrite !lookup_insert. repeat case_decide; congruence.
    + lia.
    + by rewrite !lookup_insert_ne.
    + by rewrite !lookup_insert_ne.
    + by rewrite lookup_insert_ne, lookup_insert_eq.
    + by rewrite lookup_insert_eq.
Qed.

Lemma for_range_body_short_mask (c i : nat) (h : heap) (bf bl : list Z) :
  (length Mk < length A)%nat → (i ≤ length Mk)%nat →
  (i + c = length A)%nat →
  h !! IP n = Some A → h !! Mask n = Some Mk →
  h !! f = Some bf → h !! l = Some bl →
  length bf = length A → length bl = length A →
  for_range i c (GetNetworkIPRange_body n f l) h = Panic.
Proof using Hfl HIPf HIPl HMaskf HMaskl.
  intros Hshort. revert i h bf bl.
  induction c as [| c IH]; intros i h bf bl Hi Hic HA HMk Hf Hl Hlf Hll;
    [lia |].
  destruct (lookup_lt_is_Some_2 A i) as [a Ha]; [lia |].
  cbn [for_range]. unfold mbind, M_bind, bind.
  destruct (decide (i = length Mk)) as [-> | Hne].
  - unfold GetNetworkIPRange_body. unfold mbind, M_bind, bind.
    rewrite (load_spec h (IP n) _ a) by by rewrite (buf_lookup _ _ _ HA).
    unfold load. rewrite (buf_lookup _ _ _ HMk).
    by rewrite lookup_ge_None_2.
  - destruct (lookup_lt_is_Some_2 Mk i) as [m Hm]; [lia |].
    rewrite (GetNetworkIPRange_body_spec n f l A Mk Hfl HIPf HIPl HMaskf
               HMaskl h i a m bf bl HA HMk Hf Hl Ha Hm) by lia.
    eapply IH.
    + lia.
    + lia.
    + by rewrite !lookup_insert_ne.
    + by rewrite !lookup_insert_ne.
    + by rewrite lookup_insert_ne, lookup_insert_eq.
    + by rewrite lookup_insert_eq.
    + by rewrite length_insert.
    + by rewrite length_insert.
Qed.
End network_range_any_mask.

(** X8. A mask shorter than the address makes [GetNetworkIPRange] panic:
    the loop runs over the positions of the address and indexes the mask out
    of range. *)
Theorem GetNetworkIPRange_short_mask_panics (h : heap) (n : IPNet)
    (A Mk : list Z) :
  h !! IP n = Some A → h !! Mask n = Some Mk →
  (length Mk < length A)%nat →
  GetNetworkIPRange n h = Panic.
Proof.
  intros HA HMk Hshort. unfold GetNetworkIPRange. unfold_M.
  rewrite (buf_lookup _ _ _ HA).
  set (z := replicate (length A) 0).
  set (f := fresh (dom h)). set (h1 := <[f := z]> h).
  set (l := fresh (dom h1)). set (h2 := <[l := z]> h1).
  assert (Hf : h !! f = None) by apply fresh_unallocated.
  assert (Hl1 : h1 !! l = None) by apply fresh_unallocated.
  assert (Hfl : f ≠ l).
  { intros Heq. rewrite <- Heq in Hl1. subst h1.
    by rewrite lookup_insert_eq in Hl1. }
  assert (Hl : h !! l = None).
  { subst h1. by rewrite lookup_insert_ne in Hl1. }
  assert (HIPf : IP n ≠ f) by congruence.
  assert (HIPl : IP n ≠ l) by congruence.
  assert (HMaskf : Mask n ≠ f) by congruence.
  assert (HMaskl : Mask n ≠ l) by congruence.
  assert (HA2 : h2 !! IP n = Some A).
  { subst h2 h1. by rewrite !lookup_insert_ne. }
  assert (HMk2 : h2 !! Mask n = Some Mk).
  { subst h2 h1. by rewrite !lookup_insert_ne. }
  rewrite (buf_lookup _ _ _ HA2).
  rewrite (for_range_body_short_mask n f l A Mk Hfl HIPf HIPl HMaskf HMaskl
             (length A) 0 h2 z z); try done.
  - lia.
  - subst h2 h1. by rewrite lookup_insert_ne, lookup_insert_eq.
  - subst h2. by rewrite lookup_insert_eq.
  - subst z. by rewrite length_replicate.
  - subst z. by rewrite length_replicate.
Qed.

Lemma GetNetworkIPRange_short_mask_panics_witness :
  GetNetworkIPRange network_28 heap_short_mask = Panic.
Proof.
  apply (GetNetworkIPRange_short_mask_panics heap_short_mask network_28
           [192; 168; 216; 192] [255; 255]).
  - reflexivity.
  - reflexivity.
  - cbn. lia.
Defined.

(** X9. A mask longer than the address is accepted: the two results have
    the width of the address, are computed from the leading bytes of the
    mask, and the surplus mask bytes play no part.  As for equal widths,
    both results are new buffers and no existing buffer is written. *)
Theorem GetNetworkIPRange_ignores_surplus_mask (h : heap) (n : IPNet)
    (A Mk : list Z) :
  h !! IP n = Some A → h !! Mask n = Some Mk →
  (length A ≤ length Mk)%nat →
  ∃ f l h',
    GetNetworkIPRange n h = Ok ((f, l), h')
    ∧ h !! f = None ∧ h !! l = None ∧ f ≠ l
    ∧ (∀ k, is_Some (h !! k) → h' !! k = h !! k)
    ∧ h' !! f = Some (zip_with Z.land A (take (length A) Mk))
    ∧ h' !! l = Some (zip_with (λ a m, Z.lor a (not8 m)) A
                        (take (length A) Mk)).
Proof.
  intros HA HMk Hlong. unfold GetNetworkIPRange. unfold_M.
  rewrite (buf_lookup _ _ _ HA).
  set (z := replicate (length A) 0).
  set (f := fresh (dom h)). set (h1 := <[f := z]> h).
  set (l := fresh (dom h1)). set (h2 := <[l := z]> h1).
  assert (Hf : h !! f = None) by apply fresh_unallocated.
  assert (Hl1 : h1 !! l = None) by apply fresh_unallocated.
  assert (Hfl : f ≠ l).
  { intros Heq. rewrite <- Heq in Hl1. subst h1.
    by rewrite lookup_insert_eq in Hl1. }
  assert (Hl : h !! l = None).
  { subst h1. by rewrite lookup_insert_ne in Hl1. }
  assert (HIPf : IP n ≠ f) by congruence.
  assert (HIPl : IP n ≠ l) by congruence.
  assert (HMaskf : Mask n ≠ f) by congruence.
  assert (HMaskl : Mask n ≠ l) by congruence.
  assert (HA2 : h2 !! IP n = Some A).
  { subst h2 h1. by rewrite !lookup_insert_ne. }
  assert (HMk2 : h2 !! Mask n = Some Mk).
  { subst h2 h1. by rewrite !lookup_insert_ne. }
  rewrite (buf_lookup _ _ _ HA2).
  rewrite (for_range_body_long_mask n f l A Mk Hfl HIPf HIPl HMaskf HMaskl);
    try done.
  - exists f, l. eexists. split_and!; [done .. | | |].
    + intros k [bs Hk]. subst h2 h1.
      rewrite !lookup_insert_ne; [done | congruence ..].
    + rewrite lookup_insert_ne, lookup_insert_eq by done.
      by rewrite zip_with_take_r.
    + rewrite lookup_insert_eq. by rewrite zip_with_take_r.
  - subst h2 h1. by rewrite lookup_insert_ne, lookup_insert_eq.
  - subst h2. by rewrite lookup_insert_eq.
Qed.

Lemma GetNetworkIPRange_ignores_surplus_mask_witness :
  ∃ f l h',
    GetNetworkIPRange network_28 heap_long_mask = Ok ((f, l), h')
    ∧ heap_long_mask !! f = None ∧ heap_long_mask !! l = None ∧ f ≠ l
    ∧ (∀ k, is_Some (heap_long_mask !! k) → h' !! k = heap_long_mask !! k)
    ∧ h' !! f = Some (zip_with Z.land [192; 168]
                        (take (length ([192; 168] : list Z))
                           [255; 240; 0; 0]))
    ∧ h' !! l = Some (zip_with (λ a m, Z.lor a (not8 m)) [192; 168]
                        (take (length ([192; 168] : list Z))
                           [255; 240; 0; 0])).
Proof.
  apply (GetNetworkIPRange_ignores_surplus_mask heap_long_mask network_28
           [192; 168] [255; 240; 0; 0]).
  - reflexivity.
  - reflexivity.
  - cbn. lia.
Defined.

(** ** GetNetworkIPRange: shape of the range *)

(** A property of two bytes that holds on all 256 x 256 pairs. *)
Lemma byte_cases2 (P : Z → Z → bool) :
  forallb (λ a, forallb (P a) all_bytes) all_bytes = true →
  ∀ a m, is_byte a → is_byte m → P a m = true.
Proof.
  intros Hall a m Ha Hm. unfold is_byte in *.
  rewrite forallb_forall in Hall.
  assert (Hina : In a all_bytes).
  { apply list_elem_of_In, elem_of_seqZ. lia. }
  assert (Hinm : In m all_bytes).
  { apply list_elem_of_In, elem_of_seqZ. lia. }
  specialize (Hall a Hina). rewrite forallb_forall in Hall. by apply Hall.
Qed.

Lemma lor_land_not8 (a m : Z) :
  is_byte a → is_byte m → Z.lor (Z.land a m) (not8 m) = Z.lor a (not8 m).
Proof.
  intros Ha Hm. apply Z.eqb_eq.
  apply (byte_cases2 (λ a m, Z.lor (Z.land a m) (not8 m) =? Z.lor a (not8 m)));
    [by vm_compute | done | done].
Qed.

Lemma land_lor_not8 (a m : Z) :
  is_byte a → is_byte m → Z.land (Z.lor a (not8 m)) m = Z.land a m.
Proof.
  intros Ha Hm. apply Z.eqb_eq.
  apply (byte_cases2 (λ a m, Z.land (Z.lor a (not8 m)) m =? Z.land a m));
    [by vm_compute | done | done].
Qed.

Lemma lor_not8_sum (a m : Z) :
  is_byte a → is_byte m → Z.lor a (not8 m) = Z.land a m + (255 - m).
Proof.
  intros Ha Hm. apply Z.eqb_eq.
  apply (byte_cases2 (λ a m, Z.lor a (not8 m) =? Z.land a m + (255 - m)));
    [by vm_compute | done | done].
Qed.

Lemma land_le_l (a m : Z) : 0 ≤ a → Z.land a m ≤ a.
Proof.
  intros Ha. pose proof (land_le_lor a m 0 Ha) as Hle.
  rewrite Z.lor_0_r in Hle. apply Hle. lia.
Qed.

Lemma le_lor_l (a x : Z) : 0 ≤ a → 0 ≤ x → a ≤ Z.lor a x.
Proof.
  intros Ha Hx. pose proof (land_le_lor a a x Ha Hx) as Hle.
  by rewrite Z.land_diag in Hle.
Qed.

Lemma not8_is_byte (m : Z) : is_byte (not8 m).
Proof. apply wrap8_is_byte. Qed.

Lemma wf_bytes_network_first (A Mk : list Z) :
  wf_bytes A → wf_bytes (network_first A Mk).
Proof.
  intros HA. revert Mk. induction HA as [| a A Ha HA IH]; intros [| m Mk];
    cbn; try by constructor.
  constructor; [| apply IH]. unfold is_byte in *.
  pose proof (land_le_l a m). pose proof (Z.land_nonneg a m). lia.
Qed.

Lemma wf_bytes_network_last (A Mk : list Z) :
  wf_bytes A → wf_bytes (network_last A Mk).
Proof.
  intros HA. revert Mk. induction HA as [| a A Ha HA IH]; intros [| m Mk];
    cbn; try by constructor.
  constructor; [| apply IH].
  pose proof (lor_byte a (not8 m) Ha (not8_is_byte m)).
  pose proof (not8_is_byte m) as Hn. unfold is_byte in *.
  pose proof (Z.lor_nonneg a (not8 m)). lia.
Qed.

(** Two byte-wise combinations that agree on bytes agree on buffers. *)
Lemma zip_with_bytes_ext (g g' : Z → Z → Z) (A Mk : list Z) :
  wf_bytes A → wf_bytes Mk →
  (∀ a m, is_byte a → is_byte m → g a m = g' a m) →
  zip_with g A Mk = zip_with g' A Mk.
Proof.
  intros HA HMk Hext. revert Mk HMk.
  induction HA as [| a A Ha HA IH]; intros [| m Mk] HMk; cbn; try done.
  apply Forall_cons in HMk as [Hm HMk]. f_equal; [by apply Hext | by apply IH].
Qed.

Lemma zip_with_nested (g g0 : Z → Z → Z) (A Mk : list Z) :
  zip_with g (zip_with g0 A Mk) Mk = zip_with (λ a m, g (g0 a m) m) A Mk.
Proof.
  revert Mk. induction A as [| a A IH]; intros [| m Mk]; cbn; try done.
  by rewrite IH.
Qed.

Lemma network_range_of_first (A Mk : list Z) :
  wf_bytes A → wf_bytes Mk →
  network_first (network_first A Mk) Mk = network_first A Mk
  ∧ network_last (network_first A Mk) Mk = network_last A Mk.
Proof.
  intros HA HMk. unfold network_first, network_last.
  rewrite !zip_with_nested. split; apply zip_with_bytes_ext; try done.
  - intros a m _ _. by rewrite <- Z.land_assoc, Z.land_diag.
  - intros a m Ha Hm. by apply lor_land_not8.
Qed.

Lemma network_range_of_last (A Mk : list Z) :
  wf_bytes A → wf_bytes Mk →
  network_first (network_last A Mk) Mk = network_first A Mk
  ∧ network_last (network_last A Mk) Mk = network_last A Mk.
Proof.
  intros HA HMk. unfold network_first, network_last.
  rewrite !zip_with_nested. split; apply zip_with_bytes_ext; try done.
  - intros a m Ha Hm. by apply land_lor_not8.
  - intros a m _ _. by rewrite <- Z.lor_assoc, Z.lor_diag.
Qed.

(** X10. The range depends only on the network: for an address and a mask
    of equal width, calling [GetNetworkIPRange] again with the first address
    it returned in place of the address, or with the last one, and the same
    mask, returns the same first and last addresses. *)
Theorem GetNetworkIPRange_idempotent (h : heap) (n : IPNet) (A Mk : list Z) :
  h !! IP n = Some A → h !! Mask n = Some Mk → length A = length Mk →
  wf_bytes A → wf_bytes Mk →
  ∃ f l h1,
    GetNetworkIPRange n h = Ok ((f, l), h1)
    ∧ ∀ src, src = f ∨ src = l →
        ∃ f' l' h2,
          GetNetworkIPRange {| IP := src; Mask := Mask n |} h1
          = Ok ((f', l'), h2)
          ∧ buf h2 f' = buf h1 f ∧ buf h2 l' = buf h1 l.
Proof.
  intros HA HMk Hwidth HwfA HwfM.
  destruct (GetNetworkIPRange_spec h n A Mk HA HMk Hwidth)
    as (f & l & Hf & Hl & Hfl & Hrun).
  eexists f, l, _. split; [exact Hrun |].
  set (h1 := <[l := network_last A Mk]> (<[f := network_first A Mk]> h)).
  assert (Hh1f : h1 !! f = Some (network_first A Mk)).
  { subst h1. by rewrite lookup_insert_ne, lookup_insert_eq. }
  assert (Hh1l : h1 !! l = Some (network_last A Mk)).
  { subst h1. by rewrite lookup_insert_eq. }
  assert (Hh1m : h1 !! Mask n = Some Mk).
  { subst h1. rewrite !lookup_insert_ne; [done | congruence ..]. }
  rewrite (buf_lookup _ _ _ Hh1f), (buf_lookup _ _ _ Hh1l).
  destruct (network_range_of_first A Mk HwfA HwfM) as [Hff Hfl'].
  destruct (network_range_of_last A Mk HwfA HwfM) as [Hlf Hll].
  intros src [-> | ->].
  - destruct (GetNetworkIPRange_spec h1 {| IP := f; Mask := Mask n |}
                (network_first A Mk) Mk)
      as (f' & l' & _ & _ & Hfl2 & ->); [done | done | |].
    { unfold network_first. rewrite length_zip_with. lia. }
    eexists f', l', _. split; [done |].
    rewrite buf_insert_eq, buf_insert_ne, buf_insert_eq by done.
    by rewrite Hff, Hfl'.
  - destruct (GetNetworkIPRange_spec h1 {| IP := l; Mask := Mask n |}
                (network_last A Mk) Mk)
      as (f' & l' & _ & _ & Hfl2 & ->); [done | done | |].
    { unfold network_last. rewrite length_zip_with. lia. }
    eexists f', l', _. split; [done |].
    rewrite buf_insert_eq, buf_insert_ne, buf_insert_eq by done.
    by rewrite Hlf, Hll.
Qed.

Lemma GetNetworkIPRange_idempotent_witness :
  ∃ f l h1,
    GetNetworkIPRange network_28 heap_network_28 = Ok ((f, l), h1)
    ∧ ∀ src, src = f ∨ src = l →
        ∃ f' l' h2,
          GetNetworkIPRange {| IP := src; Mask := Mask network_28 |} h1
          = Ok ((f', l'), h2)
          ∧ buf h2 f' = buf h1 f ∧ buf h2 l' = buf h1 l.
Proof.
  apply (GetNetworkIPRange_idempotent heap_network_28 network_28
           [192; 168; 216; 192] [255; 255; 255; 240]);
    try reflexivity; solve_wf_bytes.
Defined.

Lemma bytes_Compare_bytewise_le (a b : list Z) :
  Forall2 Z.le a b → bytes_Compare a b ≤ 0.
Proof.
  induction 1 as [| x y a b Hxy _ IH]; cbn; [done |].
  destruct (Z.ltb_spec x y); [lia |].
  destruct (Z.ltb_spec y x); [lia | done].
Qed.

Lemma network_first_le_address (A Mk : list Z) :
  wf_bytes A → length A = length Mk → Forall2 Z.le (network_first A Mk) A.
Proof.
  intros HA. revert Mk. induction HA as [| a A Ha HA IH]; intros [| m Mk] Hlen;
    cbn in *; try done; try (by constructor).
  constructor; [| apply IH; lia]. unfold is_byte in Ha. apply land_le_l. lia.
Qed.

Lemma address_le_network_last (A Mk : list Z) :
  wf_bytes A → length A = length Mk → Forall2 Z.le A (network_last A Mk).
Proof.
  intros HA. revert Mk. induction HA as [| a A Ha HA IH]; intros [| m Mk] Hlen;
    cbn in *; try done; try (by constructor).
  constructor; [| apply IH; lia].
  pose proof (not8_is_byte m) as Hn. unfold is_byte in *.
  apply le_lor_l; lia.
Qed.

Lemma ordering_bytewise_le (h : heap) (a b : loc) :
  Forall2 Z.le (buf h a) (buf h b) →
  ∃ r, ordering h a b = Some r ∧ r ≤ 0.
Proof.
  intros Hle. unfold ordering.
  rewrite CompareIPs_spec, decide_True by by eapply Forall2_length.
  eexists. split; [done |]. by apply bytes_Compare_bytewise_le.
Qed.

(** X11. The range contains the address it was computed from: for an
    address and a mask of equal width, every byte of the address lies between
    the bytes of the first and the last address at its position, and
    [CompareIPs] places the address at or after the first and at or before the
    last. *)
Theorem GetNetworkIPRange_contains_address (h : heap) (n : IPNet)
    (A Mk : list Z) :
  h !! IP n = Some A → h !! Mask n = Some Mk → length A = length Mk →
  wf_bytes A →
  ∃ f l h',
    GetNetworkIPRange n h = Ok ((f, l), h')
    ∧ (∀ i x a y, buf h' f !! i = Some x → A !! i = Some a →
                  buf h' l !! i = Some y → x ≤ a ≤ y)
    ∧ (∃ r, ordering h' f (IP n) = Some r ∧ r ≤ 0)
    ∧ (∃ r, ordering h' (IP n) l = Some r ∧ r ≤ 0).
Proof.
  intros HA HMk Hwidth HwfA.
  destruct (GetNetworkIPRange_spec h n A Mk HA HMk Hwidth)
    as (f & l & Hf & Hl & Hfl & Hrun).
  eexists f, l, _. split; [exact Hrun |].
  set (h' := <[l := network_last A Mk]> (<[f := network_first A Mk]> h)).
  assert (Hbf : buf h' f = network_first A Mk).
  { subst h'. by rewrite buf_insert_ne, buf_insert_eq. }
  assert (Hbl : buf h' l = network_last A Mk) by (subst h'; apply buf_insert_eq).
  assert (Hba : buf h' (IP n) = A).
  { subst h'. rewrite !buf_insert_ne by congruence. by apply buf_lookup. }
  pose proof (network_first_le_address A Mk HwfA Hwidth) as Hlo.
  pose proof (address_le_network_last A Mk HwfA Hwidth) as Hhi.
  split_and!.
  - intros i x a y Hx Ha Hy. rewrite Hbf in Hx. rewrite Hbl in Hy. split.
    + by eapply (Forall2_lookup_lr _ _ _ i x a Hlo).
    + by eapply (Forall2_lookup_lr _ _ _ i a y Hhi).
  - apply ordering_bytewise_le. by rewrite Hbf, Hba.
  - apply ordering_bytewise_le. by rewrite Hbl, Hba.
Qed.

Lemma GetNetworkIPRange_contains_address_witness :
  ∃ f l h',
    GetNetworkIPRange network_28 heap_network_28 = Ok ((f, l), h')
    ∧ (∀ i x a y, buf h' f !! i = Some x →
                  ([192; 168; 216; 192] : list Z) !! i = Some a →
                  buf h' l !! i = Some y → x ≤ a ≤ y)
    ∧ (∃ r, ordering h' f (IP network_28) = Some r ∧ r ≤ 0)
    ∧ (∃ r, ordering h' (IP network_28) l = Some r ∧ r ≤ 0).
Proof.
  apply (GetNetworkIPRange_contains_address heap_network_28 network_28
           [192; 168; 216; 192] [255; 255; 255; 240]);
    try reflexivity; solve_wf_bytes.
Defined.

Lemma be_value_zip_with_add (a b : list Z) :
  length a = length b →
  be_value (zip_with Z.add a b) = be_value a + be_value b.
Proof.
  revert b. induction a as [| x a IH]; intros [| y b] Hlen;
    cbn [zip_with length] in *; try done.
  rewrite !be_value_cons, IH, length_zip_with by lia.
  replace (length a `min` length b)%nat with (length b) by lia.
  replace (length a) with (length b) by lia. lia.
Qed.

Lemma be_value_complement (Mk : list Z) :
  be_value ((λ m, 255 - m) <$> Mk) = capacity (length Mk) - 1 - be_value Mk.
Proof.
  induction Mk as [| m Mk IH]; [done |].
  cbn [fmap list_fmap]. rewrite !be_value_cons, IH, length_fmap. cbn [length].
  rewrite capacity_S. lia.
Qed.

Lemma network_last_as_sum (A Mk : list Z) :
  wf_bytes A → wf_bytes Mk → length A = length Mk →
  network_last A Mk
  = zip_with Z.add (network_first A Mk) ((λ m, 255 - m) <$> Mk).
Proof.
  intros HA. revert Mk.
  induction HA as [| a A Ha HA IH]; intros [| m Mk] HMk Hlen; cbn in *;
    try done.
  apply Forall_cons in HMk as [Hm HMk].
  f_equal; [by apply lor_not8_sum | apply IH; [done | lia]].
Qed.

(** X12. The extent of the range is the complement of the mask: for an
    address and a mask of equal width, whatever the bytes of the mask, the
    big-endian reading of the last address exceeds that of the first by the
    reading of the all-0xFF buffer minus the reading of the mask. *)
Theorem GetNetworkIPRange_extent (h : heap) (n : IPNet) (A Mk : list Z) :
  h !! IP n = Some A → h !! Mask n = Some Mk → length A = length Mk →
  wf_bytes A → wf_bytes Mk →
  ∃ f l h',
    GetNetworkIPRange n h = Ok ((f, l), h')
    ∧ be_value (buf h' l) - be_value (buf h' f)
      = be_value (replicate (length Mk) 255) - be_value Mk.
Proof.
  intros HA HMk Hwidth HwfA HwfM.
  destruct (GetNetworkIPRange_spec h n A Mk HA HMk Hwidth)
    as (f & l & Hf & Hl & Hfl & Hrun).
  eexists f, l, _. split; [exact Hrun |].
  rewrite buf_insert_eq, buf_insert_ne, buf_insert_eq by done.
  rewrite network_last_as_sum by done.
  rewrite be_value_zip_with_add.
  - rewrite be_value_complement, be_value_replicate_ff. lia.
  - unfold network_first. rewrite length_zip_with, length_fmap. lia.
Qed.

Lemma GetNetworkIPRange_extent_witness :
  ∃ f l h',
    GetNetworkIPRange network_28 heap_network_28 = Ok ((f, l), h')
    ∧ be_value (buf h' l) - be_value (buf h' f)
      = be_value (replicate (length ([255; 255; 255; 240] : list Z)) 255)
        - be_value [255; 255; 255; 240].
Proof.
  apply (GetNetworkIPRange_extent heap_network_28 network_28
           [192; 168; 216; 192] [255; 255; 255; 240]);
    try reflexivity; solve_wf_bytes.
Defined.

Lemma land_255 (a : Z) : is_byte a → Z.land a 255 = a.
Proof.
  unfold is_byte. intros Ha. change 255 with (Z.ones 8).
  rewrite Z.land_ones by lia. apply Z.mod_small. done.
Qed.

Lemma lor_255 (a : Z) : is_byte a → Z.lor a 255 = 255.
Proof.
  intros Ha. pose proof (lor_byte a 255 Ha) as Hlt.
  pose proof (le_lor_l 255 a) as Hge. rewrite Z.lor_comm in Hge.
  unfold is_byte in *. lia.
Qed.

Lemma network_range_full_mask (A : list Z) :
  wf_bytes A →
  network_first A (replicate (length A) 255) = A
  ∧ network_last A (replicate (length A) 255) = A.
Proof.
  unfold network_first, network_last.
  induction 1 as [| a A Ha HA [IH1 IH2]]; [done |].
  cbn [length replicate zip_with]. rewrite IH1, IH2, land_255 by done.
  change (not8 255) with 0. by rewrite Z.lor_0_r.
Qed.

Lemma network_range_zero_mask (A : list Z) :
  wf_bytes A →
  network_first A (replicate (length A) 0) = replicate (length A) 0
  ∧ network_last A (replicate (length A) 0) = replicate (length A) 255.
Proof.
  unfold network_first, network_last.
  induction 1 as [| a A Ha HA [IH1 IH2]]; [done |].
  cbn [length replicate zip_with]. rewrite IH1, IH2, Z.land_0_r.
  change (not8 0) with 255. by rewrite lor_255.
Qed.

(** X13. The two extreme masks: with an all-0xFF mask the first and the
    last address both equal the address, so the range is that one address;
    with an all-zero mask the first address is all-zero and the last is
    all-0xFF, whatever the address. *)
Theorem GetNetworkIPRange_extreme_masks (h : heap) (n : IPNet)
    (A Mk : list Z) :
  h !! IP n = Some A → h !! Mask n = Some Mk → length A = length Mk →
  wf_bytes A →
  ∃ f l h',
    GetNetworkIPRange n h = Ok ((f, l), h')
    ∧ (Mk = replicate (length A) 255 → buf h' f = A ∧ buf h' l = A)
    ∧ (Mk = replicate (length A) 0 →
       buf h' f = replicate (length A) 0
       ∧ buf h' l = replicate (length A) 255).
Proof.
  intros HA HMk Hwidth HwfA.
  destruct (GetNetworkIPRange_spec h n A Mk HA HMk Hwidth)
    as (f & l & Hf & Hl & Hfl & Hrun).
  eexists f, l, _. split; [exact Hrun |].
  rewrite buf_insert_eq, buf_insert_ne, buf_insert_eq by done.
  split; intros ->.
  - by apply network_range_full_mask.
  - by apply network_range_zero_mask.
Qed.

Lemma GetNetworkIPRange_extreme_masks_witness :
  ∃ f l h',
    GetNetworkIPRange network_28 heap_network_32 = Ok ((f, l), h')
    ∧ (([255; 255; 255; 255] : list Z)
       = replicate (length ([192; 168; 0; 7] : list Z)) 255 →
       buf h' f = [192; 168; 0; 7] ∧ buf h' l = [192; 168; 0; 7])
    ∧ (([255; 255; 255; 255] : list Z)
       = replicate (length ([192; 168; 0; 7] : list Z)) 0 →
       buf h' f = replicate (length ([192; 168; 0; 7] : list Z)) 0
       ∧ buf h' l = replicate (length ([192; 168; 0; 7] : list Z)) 255).
Proof.
  apply (GetNetworkIPRange_extreme_masks heap_network_32 network_28
           [192; 168; 0; 7] [255; 255; 255; 255]);
    try reflexivity; solve_wf_bytes.
Defined.

Lemma network_first_le_last (A Mk : list Z) :
  wf_bytes A → Forall2 Z.le (network_first A Mk) (network_last A Mk).
Proof.
  intros HA. revert Mk.
  induction HA as [| a A Ha HA IH]; intros [| m Mk]; cbn; try by constructor.
  constructor; [| apply IH].
  pose proof (not8_is_byte m) as Hn. unfold is_byte in *.
  apply land_le_lor; lia.
Qed.

(** X14. The range of a network is never empty for the iterator: for an
    address and a mask of equal width, an iterator built from the two
    addresses returned by [GetNetworkIPRange] returns the network's first
    address with ok = true on its first retrieval. *)
Theorem network_range_iterates_from_first (h : heap) (n : IPNet)
    (A Mk : list Z) :
  h !! IP n = Some A → h !! Mask n = Some Mk → length A = length Mk →
  wf_bytes A →
  ∃ h', ('(f, l) ← GetNetworkIPRange n;
         iter ← GetIPRangeIterator f l;
         iter_Next_value iter) h
        = Ok ((zip_with Z.land A Mk, true), h').
Proof.
  intros HA HMk Hwidth HwfA.
  destruct (GetNetworkIPRange_spec h n A Mk HA HMk Hwidth)
    as (f & l & Hf & Hl & Hfl & Hrun).
  unfold mbind, M_bind, bind. rewrite Hrun.
  set (h1 := <[l := network_last A Mk]> (<[f := network_first A Mk]> h)).
  assert (Hh1f : h1 !! f = Some (network_first A Mk)).
  { subst h1. by rewrite lookup_insert_ne, lookup_insert_eq. }
  assert (Hh1l : h1 !! l = Some (network_last A Mk)).
  { subst h1. by rewrite lookup_insert_eq. }
  rewrite GetIPRangeIterator_spec, (buf_lookup _ _ _ Hh1f).
  set (c := fresh (dom h1)).
  assert (Hcl : c ≠ l) by (apply fresh_ne_allocated; eauto).
  rewrite (iter_Next_value_spec _ _ (network_first A Mk) (network_last A Mk)).
  - assert (advances (network_first A Mk) (network_last A Mk) = true) as ->.
    { unfold advances. apply andb_true_iff. split.
      - apply bool_decide_eq_true_2. unfold network_first, network_last.
        by rewrite !length_zip_with.
      - apply Z.leb_le, bytes_Compare_bytewise_le.
        by apply network_first_le_last. }
    eauto.
  - apply lookup_insert_eq.
  - cbn. by rewrite lookup_insert_ne.
Qed.

Lemma network_range_iterates_from_first_witness :
  ∃ h', ('(f, l) ← GetNetworkIPRange network_28;
         iter ← GetIPRangeIterator f l;
         iter_Next_value iter) heap_network_28
        = Ok ((zip_with Z.land [192; 168; 216; 192] [255; 255; 255; 240],
               true), h').
Proof.
  apply (network_range_iterates_from_first heap_network_28 network_28
           [192; 168; 216; 192] [255; 255; 255; 240]);
    try reflexivity; solve_wf_bytes.
Defined.

(** ** The iterator and its caller's buffers *)

Lemma length_collect_bytes (k : nat) (c L : list Z) :
  length (collect_bytes k c L) = k.
Proof.
  revert c. induction k as [| k IH]; intros c; [done |].
  cbn. by rewrite IH.
Qed.

(** X15. Iterating never panics and never writes to a buffer of the
    caller: after an iterator is built over two existing slices and retrieved
    from any number of times, every buffer that existed before, the two
    bounds among them, holds what it held; each retrieval produced one
    outcome. *)
Theorem iterator_never_writes_existing_buffers (k : nat) (h : heap)
    (f l : loc) :
  is_Some (h !! f) → is_Some (h !! l) →
  ∃ outs h',
    (iter ← GetIPRangeIterator f l; iter_collect k iter) h = Ok (outs, h')
    ∧ length outs = k
    ∧ (∀ x, is_Some (h !! x) → h' !! x = h !! x).
Proof.
  intros [A Hf] [B Hl]. unfold mbind, M_bind, bind.
  rewrite GetIPRangeIterator_spec, (buf_lookup _ _ _ Hf).
  set (n := fresh (dom h)).
  assert (Hnl : n ≠ l) by (apply fresh_ne_allocated; eauto).
  destruct (iter_collect_refines k (<[n := A]> h)
              {| first := f; last := l; next := n |} A B)
    as (h' & -> & _ & Hframe).
  - apply lookup_insert_eq.
  - cbn. by rewrite lookup_insert_ne.
  - done.
  - eexists _, h'. split_and!; [done | apply length_collect_bytes |].
    intros x Hx. assert (n ≠ x) by (by apply fresh_ne_allocated).
    rewrite Hframe; [by apply lookup_insert_ne | | done].
    by rewrite lookup_insert_ne.
Qed.

Lemma iterator_never_writes_existing_buffers_witness :
  ∃ outs h',
    (iter ← GetIPRangeIterator 1%positive 3%positive; iter_collect 5 iter)
      heap_three_addresses = Ok (outs, h')
    ∧ length outs = 5%nat
    ∧ (∀ x, is_Some (heap_three_addresses !! x) →
            h' !! x = heap_three_addresses !! x).
Proof.
  apply (iterator_never_writes_existing_buffers 5 heap_three_addresses
           1%positive 3%positive).
  - exists [192; 168; 0; 0]. reflexivity.
  - exists [192; 168; 1; 0]. reflexivity.
Defined.




(** X17. Bounds of different widths give an iterator that yields nothing:
    the comparison inside every retrieval reports an error, so every
    retrieval returns the first address with ok = false, and the cursor never
    moves. *)
Theorem iterator_over_mismatched_widths (k : nat) (h : heap) (f l : loc)
    (A B : list Z) :
  h !! f = Some A → h !! l = Some B → length A ≠ length B →
  ∃ h', (iter ← GetIPRangeIterator f l; iter_collect k iter) h
        = Ok (replicate k (A, false), h').
Proof.
  intros Hf Hl Hlen. unfold mbind, M_bind, bind.
  rewrite GetIPRangeIterator_spec, (buf_lookup _ _ _ Hf).
  set (n := fresh (dom h)).
  assert (Hnl : n ≠ l) by (apply fresh_ne_allocated; eauto).
  assert (Hadv : advances A B = false).
  { unfold advances. by rewrite bool_decide_eq_false_2. }
  destruct (iter_collect_stationary k (<[n := A]> h)
              {| first := f; last := l; next := n |} A B)
    as (h' & Hrun & _).
  - apply lookup_insert_eq.
  - cbn. by rewrite lookup_insert_ne.
  - unfold step_cursor. by rewrite Hadv.
  - rewrite Hadv in Hrun. eauto.
Qed.

Lemma iterator_over_mismatched_widths_witness :
  ∃ h', (iter ← GetIPRangeIterator 1%positive 2%positive;
         iter_collect 3 iter) heap_mixed_widths
        = Ok (replicate 3 ([255; 255; 255; 255], false), h').
Proof.
  apply (iterator_over_mismatched_widths 3 heap_mixed_widths 1%positive
           2%positive [255; 255; 255; 255] MaxIPv4In6).
  - reflexivity.
  - reflexivity.
  - discriminate.
Defined.

(** ** Witnesses for the range lemmas *)

Lemma iterator_yields_range_witness :
  ∃ h', (iter ← GetIPRangeIterator 1%positive 2%positive;
         iter_collect
           (Z.to_nat (be_value [192; 168; 0; 1] - be_value [192; 168; 0; 0])
            + 2) iter) heap_three_addresses
        = Ok (((λ v, (be_bytes (length ([192; 168; 0; 1] : list Z)) v, true))
                 <$> seqZ (be_value [192; 168; 0; 0])
                       (be_value [192; 168; 0; 1]
                        - be_value [192; 168; 0; 0] + 1))
              ++ [(be_bytes (length ([192; 168; 0; 1] : list Z))
                     (be_value [192; 168; 0; 1] + 1), false)], h')
        ∧ (∀ k, is_Some (heap_three_addresses !! k) →
                h' !! k = heap_three_addresses !! k).
Proof.
  apply (iterator_yields_range heap_three_addresses 1%positive 2%positive
           [192; 168; 0; 0] [192; 168; 0; 1]).
  - reflexivity.
  - reflexivity.
  - solve_wf_bytes.
  - solve_wf_bytes.
  - reflexivity.
  - eval_be_value. lia.
  - split; [discriminate |].
    intros m Hm Hlen. apply list_elem_of_In in Hm. cbn in Hm.
    destruct Hm as [<- | [<- | [<- | []]]]; try discriminate Hlen.
    eval_be_value. lia.
Defined.

Lemma iterator_emits_within_bounds_witness :
  ∃ outs h',
    (iter ← GetIPRangeIterator 1%positive 3%positive; iter_collect 4 iter)
      heap_three_addresses = Ok (outs, h')
    ∧ ∀ v, (v, true) ∈ outs →
           be_value [192; 168; 0; 0] ≤ be_value v ≤ be_value [192; 168; 1; 0].
Proof.
  apply (iterator_emits_within_bounds 4 heap_three_addresses 1%positive
           3%positive [192; 168; 0; 0] [192; 168; 1; 0]).
  - reflexivity.
  - reflexivity.
  - solve_wf_bytes.
  - solve_wf_bytes.
  - reflexivity.
  - left. reflexivity.
Defined.

(** ** What a retrieval returns *)

(** X21. Every retrieval hands back a slice of its own: the slice returned
    by the iterator's [Next] sits at an address that was unused before the
    call, holds the value the cursor had before the call, and is not the
    cursor, so a caller may overwrite it without disturbing the iterator.
    The only existing buffer the call may write is the cursor. *)
Theorem iter_Next_returns_fresh_slice (h : heap) (iter : ipRangeIterator)
    (c L : list Z) :
  h !! next iter = Some c → h !! last iter = Some L →
  ∃ ip ok h',
    iter_Next iter h = Ok ((ip, ok), h')
    ∧ h !! ip = None ∧ ip ≠ next iter
    ∧ h' !! ip = Some c
    ∧ (∀ x, is_Some (h !! x) → x ≠ next iter → h' !! x = h !! x).
Proof.
  intros Hc HL. rewrite (iter_Next_spec h iter c L Hc HL).
  set (ip := fresh (dom h)).
  assert (Hn : ip ≠ next iter) by (apply fresh_ne_allocated; eauto).
  eexists ip, _, _. split_and!; [done | apply fresh_unallocated | done | |].
  - destruct (advances c L).
    + by rewrite lookup_insert_ne, lookup_insert_eq.
    + apply lookup_insert_eq.
  - intros x Hx Hne. assert (ip ≠ x) by (by apply fresh_ne_allocated).
    destruct (advances c L); by rewrite !lookup_insert_ne.
Qed.

Lemma iter_Next_returns_fresh_slice_witness :
  ∃ ip ok h',
    iter_Next {| first := 1%positive; last := 2%positive; next := 3%positive |}
      heap_three_addresses = Ok ((ip, ok), h')
    ∧ heap_three_addresses !! ip = None ∧ ip ≠ 3%positive
    ∧ h' !! ip = Some [192; 168; 1; 0]
    ∧ (∀ x, is_Some (heap_three_addresses !! x) → x ≠ 3%positive →
            h' !! x = heap_three_addresses !! x).
Proof.
  apply (iter_Next_returns_fresh_slice heap_three_addresses
           {| first := 1%positive; last := 2%positive; next := 3%positive |}
           [192; 168; 1; 0] [192; 168; 0; 1]).
  - reflexivity.
  - reflexivity.
Defined.

(** ** The iterator's description *)

Lemma bytes_Compare_antisym (a b : list Z) :
  bytes_Compare b a = - bytes_Compare a b.
Proof.
  revert b. induction a as [| x a IH]; intros [| y b]; cbn; try done.
  destruct (Z.ltb_spec x y), (Z.ltb_spec y x); try done; lia.
Qed.

Example iter_String_before_and_after :
  value_of ((iter ← range_over [192; 168; 0; 0] [192; 168; 0; 1];
             s0 ← iter_String dotted iter;
             _ ← iter_collect 2 iter;
             s2 ← iter_String dotted iter;
             mret (s0, s2)) ∅)
  = Some ("IPRangeIterator(192.168.0.0 -> 192.168.0.1, next: 192.168.0.0)",
          "IPRangeIterator(192.168.0.0 -> 192.168.0.1, next: none)").
Proof. vm_compute. reflexivity. Qed.

(** X20. [String] reads and never writes.  For an iterator whose cursor
    and upper bound have the same width it renders the form ending in
    [next: none] exactly when the next retrieval would return ok = false, and
    the form that shows the cursor otherwise.  When the widths differ it
    shows the cursor, although every retrieval returns ok = false. *)
Theorem iter_String_agrees_with_Next (IP_String : list Z → string)
    (h : heap) (iter : ipRangeIterator) (c L : list Z) :
  h !! next iter = Some c → h !! last iter = Some L →
  ∃ ok h',
    iter_Next_value iter h = Ok ((c, ok), h')
    ∧ (length c = length L →
       iter_String IP_String iter h
       = Ok (if ok
             then "IPRangeIterator(" +:+ IP_String (buf h (first iter))
                  +:+ " -> " +:+ IP_String L
                  +:+ ", next: " +:+ IP_String c +:+ ")"
             else "IPRangeIterator(" +:+ IP_String (buf h (first iter))
                  +:+ " -> " +:+ IP_String L +:+ ", next: none)", h))
    ∧ (length c ≠ length L →
       ok = false
       ∧ iter_String IP_String iter h
         = Ok ("IPRangeIterator(" +:+ IP_String (buf h (first iter))
               +:+ " -> " +:+ IP_String L
               +:+ ", next: " +:+ IP_String c +:+ ")", h)).
Proof.
  intros Hc HL. rewrite (iter_Next_value_spec h iter c L Hc HL).
  eexists _, _. split; [done |].
  unfold iter_String. unfold mbind, M_bind, bind. rewrite CompareIPs_spec.
  rewrite (buf_lookup _ _ _ Hc), (buf_lookup _ _ _ HL).
  unfold read, mret, M_ret, ret, advances.
  pose proof (bytes_Compare_antisym c L) as Hanti.
  split; intros Hlen.
  - rewrite decide_True by done.
    rewrite bool_decide_eq_true_2 by done. cbn [andb].
    destruct (Z.leb_spec (bytes_Compare c L) 0) as [Hle | Hgt].
    + assert ((bytes_Compare L c <? 0) = false) as -> by (apply Z.ltb_ge; lia).
      by rewrite (buf_lookup _ _ _ Hc), (buf_lookup _ _ _ HL).
    + assert ((bytes_Compare L c <? 0) = true) as -> by (apply Z.ltb_lt; lia).
      by rewrite (buf_lookup _ _ _ HL).
  - rewrite decide_False by done.
    rewrite bool_decide_eq_false_2 by done. cbn.
    by rewrite (buf_lookup _ _ _ Hc), (buf_lookup _ _ _ HL).
Qed.

Lemma iter_String_agrees_with_Next_witness :
  ∃ ok h',
    iter_Next_value {| first := 1%positive; last := 2%positive;
                       next := 3%positive |} heap_three_addresses
    = Ok (([192; 168; 1; 0], ok), h')
    ∧ (length ([192; 168; 1; 0] : list Z)
       = length ([192; 168; 0; 1] : list Z) →
       iter_String dotted {| first := 1%positive; last := 2%positive;
                             next := 3%positive |} heap_three_addresses
       = Ok (if ok
             then "IPRangeIterator("
                  +:+ dotted (buf heap_three_addresses 1%positive)
                  +:+ " -> " +:+ dotted [192; 168; 0; 1]
                  +:+ ", next: " +:+ dotted [192; 168; 1; 0] +:+ ")"
             else "IPRangeIterator("
                  +:+ dotted (buf heap_three_addresses 1%positive)
                  +:+ " -> " +:+ dotted [192; 168; 0; 1] +:+ ", next: none)",
             heap_three_addresses))
    ∧ (length ([192; 168; 1; 0] : list Z)
       ≠ length ([192; 168; 0; 1] : list Z) →
       ok = false
       ∧ iter_String dotted {| first := 1%positive; last := 2%positive;
                               next := 3%positive |} heap_three_addresses
         = Ok ("IPRangeIterator("
               +:+ dotted (buf heap_three_addresses 1%positive)
               +:+ " -> " +:+ dotted [192; 168; 0; 1]
               +:+ ", next: " +:+ dotted [192; 168; 1; 0] +:+ ")",
               heap_three_addresses)).
Proof.
  apply (iter_String_agrees_with_Next dotted heap_three_addresses
           {| first := 1%positive; last := 2%positive; next := 3%positive |}
           [192; 168; 1; 0] [192; 168; 0; 1]).
  - reflexivity.
  - reflexivity.
Defined.
